(** * AI-Hiring-Copilot: playback scheduler and transcript aggregator

    A shallow embedding of the live-session core of [App.tsx]: the
    [onmessage] handler of the duplex channel (audio scheduling,
    transcript fragments, barge-in), the [onended] callback of a
    scheduled source, [endInterview] and [updateTranscript].  The
    repository ships two variants of the component (the two [App]
    files); where they differ, both are embedded, in [Part001] and
    [Part002].

    Conventions.
    - Audio time ([ctx.currentTime], [AudioBuffer.duration], the
      argument of [start]) is counted in output sample frames, as an
      integer: both quantities are a whole number of frames divided by
      the sample rate.  Wall-clock time ([Date.now()]) is in
      milliseconds.
    - One handler invocation runs to completion before the next
      begins; [await decodeAudioData(...)] yields its result in place.
    - [setState] calls take effect in the order they are issued. *)

From stdpp Require Import base numbers list strings.

Open Scope Z_scope.

(** ** JavaScript arrays *)

(** [l[i]]: [undefined] outside the array. *)
Definition js_at {A} (l : list A) (i : Z) : option A :=
  if decide (0 ≤ i) then l !! Z.to_nat i else None.

(** [l.slice(b, e)], negative indices counting from the end. *)
Definition js_slice {A} (l : list A) (b e : Z) : list A :=
  let len := Z.of_nat (length l) in
  let from := if decide (b < 0) then Z.max (len + b) 0 else Z.min b len in
  let to := if decide (e < 0) then Z.max (len + e) 0 else Z.min e len in
  take (Z.to_nat (to - from)) (drop (Z.to_nat from) l).

(** ** Transcript *)

Inductive Role := interviewer | candidate.

Global Instance Role_eq_dec : EqDecision Role.
Proof. solve_decision. Defined.

(** [Message] of [types.ts], as the component uses it. *)
Record Message := mkMessage {
  role : Role;
  text : string;
  timestamp : Z
}.

Global Instance Inboundeq_dec : EqDecision Message.
Proof. solve_decision. Defined.

(** [{ ...last, text: t }] *)
Definition with_text (m : Message) (t : string) : Message :=
  {| role := role m; text := t; timestamp := timestamp m |}.

(** ** Inbound channel messages

    The fields of [LiveServerMessage] that [onmessage] reads.  An
    optional property is an [option]; [parts] is the array the handler
    indexes without a guard. *)

Record Blob := { data : option string }.
Record Part := { inlineData : option Blob }.
Record Content := { parts : list Part }.
Record Transcription := { transcriptionText : string }.

Record LiveServerContent := {
  modelTurn : option Content;
  outputTranscription : option Transcription;
  inputTranscription : option Transcription;
  interrupted : option bool
}.

Record LiveServerMessage := { serverContent : option LiveServerContent }.

(** [message.serverContent?.modelTurn?.parts[0]?.inlineData?.data] *)
Definition base64Audio (message : LiveServerMessage) : option string :=
  sc ← serverContent message;
  mt ← modelTurn sc;
  p ← js_at (parts mt) 0;
  b ← inlineData p;
  data b.

(** Truthiness of an optional string and of an optional boolean. *)
Definition truthy_string (o : option string) : option string :=
  match o with
  | Some s => if decide (s = "") then None else Some s
  | None => None
  end.

Definition truthy_bool (o : option bool) : bool :=
  match o with Some b => b | None => false end.

(** ** Component state *)

Inductive InterviewStatus := IDLE | CONNECTING | ACTIVE | ENDED.

(** An [AudioBufferSourceNode]: the duration of its buffer, the time
    it was started at ([None] before [start]) and whether [stop] was
    called on it. *)
Record AudioBufferSourceNode := mkNode {
  duration : Z;
  startedAt : option Z;
  stopped : bool
}.

Record LiveSession := { closed : bool }.

(** The hooks of [App] the session core reads and writes.  [nodes] is
    the store of every source node created so far; a node is known by
    its index there, and [activeSourcesRef] is the [Set] of those
    references in insertion order. *)
Record App := mkApp {
  status : InterviewStatus;
  transcript : list Message;
  isModelTalking : bool;
  nextStartTimeRef : Z;
  activeSourcesRef : list nat;
  sessionRef : option LiveSession;
  nodes : list AudioBufferSourceNode
}.

Definition initialApp : App :=
  {| status := IDLE; transcript := []; isModelTalking := false;
     nextStartTimeRef := 0; activeSourcesRef := []; sessionRef := None;
     nodes := [] |}.

Definition setStatus (v : InterviewStatus) (s : App) : App :=
  mkApp v (transcript s) (isModelTalking s) (nextStartTimeRef s)
        (activeSourcesRef s) (sessionRef s) (nodes s).
Definition setTranscript (f : list Message → list Message) (s : App) : App :=
  mkApp (status s) (f (transcript s)) (isModelTalking s) (nextStartTimeRef s)
        (activeSourcesRef s) (sessionRef s) (nodes s).
Definition setIsModelTalking (v : bool) (s : App) : App :=
  mkApp (status s) (transcript s) v (nextStartTimeRef s)
        (activeSourcesRef s) (sessionRef s) (nodes s).
Definition set_nextStartTimeRef (v : Z) (s : App) : App :=
  mkApp (status s) (transcript s) (isModelTalking s) v
        (activeSourcesRef s) (sessionRef s) (nodes s).
Definition set_activeSourcesRef (v : list nat) (s : App) : App :=
  mkApp (status s) (transcript s) (isModelTalking s) (nextStartTimeRef s)
        v (sessionRef s) (nodes s).
Definition set_sessionRef (v : option LiveSession) (s : App) : App :=
  mkApp (status s) (transcript s) (isModelTalking s) (nextStartTimeRef s)
        (activeSourcesRef s) v (nodes s).
Definition set_nodes (v : list AudioBufferSourceNode) (s : App) : App :=
  mkApp (status s) (transcript s) (isModelTalking s) (nextStartTimeRef s)
        (activeSourcesRef s) (sessionRef s) v.

(** [Set.prototype.add], [delete] and [size] on references. *)
Definition set_add (x : nat) (l : list nat) : list nat :=
  if decide (x ∈ l) then l else l ++ [x].
Definition set_delete (x : nat) (l : list nat) : list nat :=
  filter (λ y, y ≠ x) l.
Definition set_size (l : list nat) : Z := Z.of_nat (length l).

(** ** Handlers as state transformers that may throw

    A thrown exception leaves the writes made before it in place. *)

Inductive Exn := DecodeError | InvalidStateError.

Inductive Completion (A : Type) : Type :=
| Normal (a : A)
| Throw (e : Exn).
Arguments Normal {A} a.
Arguments Throw {A} e.

Definition JS (A : Type) : Type := App → Completion A * App.

Global Instance JS_ret : MRet JS := λ A a s, (Normal a, s).
Global Instance JS_bind : MBind JS := λ A B k m s,
  match m s with
  | (Normal a, s') => k a s'
  | (Throw e, s') => (Throw e, s')
  end.

Definition throw {A} (e : Exn) : JS A := λ s, (Throw e, s).
Definition gets {A} (f : App → A) : JS A := λ s, (Normal (f s), s).
Definition modify (f : App → App) : JS unit := λ s, (Normal tt, f s).

(** [try { m } catch (e) {}] *)
Definition try_ignore (m : JS unit) : JS unit := λ s,
  match m s with
  | (Normal a, s') => (Normal a, s')
  | (Throw _, s') => (Normal tt, s')
  end.

Definition when (b : bool) (m : JS unit) : JS unit :=
  if b then m else mret tt.

(** [xs.forEach(f)] *)
Fixpoint forEach {A} (f : A → JS unit) (xs : list A) : JS unit :=
  match xs with
  | [] => mret tt
  | x :: xs' => f x ;; forEach f xs'
  end.

(** The state a handler leaves behind, however it completes. *)
Definition exec {A} (m : JS A) (s : App) : App := (m s).2.

(** ** Web Audio operations on source nodes *)

(** [ctx.createBufferSource()] followed by [source.buffer = b]. *)
Definition createBufferSource (d : Z) : JS nat := λ s,
  (Normal (length (nodes s)),
   set_nodes (nodes s ++ [{| duration := d; startedAt := None; stopped := false |}]) s).

(** [source.start(when)]: a source may be started once. *)
Definition start (source : nat) (when_ : Z) : JS unit := λ s,
  match nodes s !! source with
  | Some n =>
      match startedAt n with
      | None => (Normal tt, set_nodes (<[source := mkNode (duration n) (Some when_) (stopped n)]> (nodes s)) s)
      | Some _ => (Throw InvalidStateError, s)
      end
  | None => (Throw InvalidStateError, s)
  end.

(** [source.stop()]: an error on a source that was never started. *)
Definition stop_node (n : AudioBufferSourceNode) : AudioBufferSourceNode :=
  mkNode (duration n) (startedAt n) true.

Definition stop (source : nat) : JS unit := λ s,
  match nodes s !! source with
  | Some n =>
      match startedAt n with
      | Some _ => (Normal tt, set_nodes (<[source := stop_node n]> (nodes s)) s)
      | None => (Throw InvalidStateError, s)
      end
  | None => (Throw InvalidStateError, s)
  end.

(** ** The decoder

    [decodeAudioData(decode(base64), ctx, 24000, 1)] of [utils/audio]:
    the duration of the decoded buffer, or [None] when decoding
    throws. *)
Class Codec := { decodeAudioData : string → option Z }.

Definition NonNegDurations `{Codec} : Prop :=
  ∀ b d, decodeAudioData b = Some d → 0 ≤ d.

Module Part001.

(** The updater passed to [setTranscript]; [now] is [Date.now()]. *)
Definition updateTranscript (r : Role) (t : string) (now : Z)
    (prev : list Message) : list Message :=
  match js_at prev (Z.of_nat (length prev) - 1) with
  | Some last =>
      if bool_decide (role last = r) && bool_decide (now - timestamp last < 3000)
      then js_slice prev 0 (-1) ++ [with_text last (text last +:+ " " +:+ t)]
      else prev ++ [{| role := r; text := t; timestamp := now |}]
  | None => prev ++ [{| role := r; text := t; timestamp := now |}]
  end.

(** The body of [if (message.serverContent?.interrupted)]. *)
Definition handleInterrupt : JS unit :=
  active ← gets activeSourcesRef;
  forEach (λ s, stop s) active;;
  modify (set_activeSourcesRef []);;
  modify (set_nextStartTimeRef 0);;
  modify (setIsModelTalking false).

Definition endInterview : JS unit :=
  session ← gets sessionRef;
  when (bool_decide (is_Some session)) (modify (set_sessionRef (Some {| closed := true |})));;
  modify (setStatus ENDED).

End Part001.

Module Part002.

Definition updateTranscript (r : Role) (t : string) (now : Z)
    (prev : list Message) : list Message :=
  match js_at prev (Z.of_nat (length prev) - 1) with
  | Some last =>
      if bool_decide (role last = r) && bool_decide (now - timestamp last < 3000)
      then js_slice prev 0 (-1) ++ [with_text last (text last +:+ " " +:+ t)]
      else prev ++ [{| role := r; text := t; timestamp := now |}]
  | None => prev ++ [{| role := r; text := t; timestamp := now |}]
  end.

Definition handleInterrupt : JS unit :=
  active ← gets activeSourcesRef;
  forEach (λ s, try_ignore (stop s)) active;;
  modify (set_activeSourcesRef []);;
  modify (set_nextStartTimeRef 0);;
  modify (setIsModelTalking false).

(** The microphone tracks stopped here are not part of the model. *)
Definition endInterview : JS unit :=
  session ← gets sessionRef;
  when (bool_decide (is_Some session)) (modify (set_sessionRef (Some {| closed := true |})));;
  modify (set_sessionRef None);;
  modify (setStatus ENDED).

End Part002.

(** ** The component, for either variant *)

Inductive Variant := part_001 | part_002.

Definition updateTranscript (v : Variant) :
    Role → string → Z → list Message → list Message :=
  match v with
  | part_001 => Part001.updateTranscript
  | part_002 => Part002.updateTranscript
  end.

Definition handleInterrupt (v : Variant) : JS unit :=
  match v with
  | part_001 => Part001.handleInterrupt
  | part_002 => Part002.handleInterrupt
  end.

Definition endInterview (v : Variant) : JS unit :=
  match v with
  | part_001 => Part001.endInterview
  | part_002 => Part002.endInterview
  end.

(** [source.onended] / the ['ended'] listener of a scheduled source. *)
Definition onended (source : nat) : JS unit :=
  modify (λ s, set_activeSourcesRef (set_delete source (activeSourcesRef s)) s);;
  size ← gets (λ s, set_size (activeSourcesRef s));
  when (bool_decide (size = 0)) (modify (setIsModelTalking false)).

Section Handlers.
Context `{Codec}.

(** The body of [if (base64Audio)]; [currentTime] is
    [ctx.currentTime]. *)
Definition enqueue (base64 : string) (currentTime : Z) : JS unit :=
  modify (setIsModelTalking true);;
  cursor ← gets nextStartTimeRef;
  modify (set_nextStartTimeRef (Z.max cursor currentTime));;
  audioBuffer ← match decodeAudioData base64 with
                | Some d => mret d
                | None => throw DecodeError
                end;
  source ← createBufferSource audioBuffer;
  cursor ← gets nextStartTimeRef;
  start source cursor;;
  modify (λ s, set_nextStartTimeRef (nextStartTimeRef s + audioBuffer) s);;
  modify (λ s, set_activeSourcesRef (set_add source (activeSourcesRef s)) s).

(** The transcription branch of [onmessage]; [dateNow] is
    [Date.now()] when the updater runs. *)
Definition transcribe (v : Variant) (message : LiveServerMessage)
    (dateNow : Z) : JS unit :=
  match serverContent message ≫= outputTranscription with
  | Some o =>
      modify (setTranscript
                (updateTranscript v interviewer (transcriptionText o) dateNow))
  | None =>
      match serverContent message ≫= inputTranscription with
      | Some i =>
          modify (setTranscript
                    (updateTranscript v candidate (transcriptionText i) dateNow))
      | None => mret tt
      end
  end.

Definition onmessage (v : Variant) (message : LiveServerMessage)
    (currentTime dateNow : Z) : JS unit :=
  match truthy_string (base64Audio message) with
  | Some base64 => enqueue base64 currentTime
  | None => mret tt
  end;;
  transcribe v message dateNow;;
  when (truthy_bool (serverContent message ≫= interrupted)) (handleInterrupt v).

(** ** Sessions as runs of events *)

Inductive Event :=
| Inbound (message : LiveServerMessage) (currentTime dateNow : Z)
| Ended (source : nat)
| EndInterview
| Close.

Definition handler (v : Variant) (e : Event) : JS unit :=
  match e with
  | Inbound m currentTime dateNow => onmessage v m currentTime dateNow
  | Ended source => onended source
  | EndInterview => endInterview v
  | Close => modify (setStatus ENDED)
  end.

Definition step (v : Variant) (s : App) (e : Event) : App :=
  exec (handler v e) s.

Definition run (v : Variant) (es : list Event) (s : App) : App :=
  foldl (step v) s es.

End Handlers.

(** ** Test data *)

(** An audio-only message, a transcription message, a barge-in. *)
Definition audioMessage (b : string) : LiveServerMessage :=
  {| serverContent := Some
       {| modelTurn := Some {| parts := [{| inlineData := Some {| data := Some b |} |}] |};
          outputTranscription := None; inputTranscription := None;
          interrupted := None |} |}.

Definition interruptMessage : LiveServerMessage :=
  {| serverContent := Some
       {| modelTurn := None; outputTranscription := None;
          inputTranscription := None; interrupted := Some true |} |}.

Definition bothTranscriptions (o i : string) : LiveServerMessage :=
  {| serverContent := Some
       {| modelTurn := None;
          outputTranscription := Some {| transcriptionText := o |};
          inputTranscription := Some {| transcriptionText := i |};
          interrupted := None |} |}.

(** A chunk in a message with the transcriptions of both sides. *)
Definition audioAndBoth (b o i : string) : LiveServerMessage :=
  {| serverContent := Some
       {| modelTurn := Some {| parts := [{| inlineData := Some {| data := Some b |} |}] |};
          outputTranscription := Some {| transcriptionText := o |};
          inputTranscription := Some {| transcriptionText := i |};
          interrupted := None |} |}.

(** A chunk in the message that signals the barge-in. *)
Definition audioAndInterrupt (b : string) : LiveServerMessage :=
  {| serverContent := Some
       {| modelTurn := Some {| parts := [{| inlineData := Some {| data := Some b |} |}] |};
          outputTranscription := None; inputTranscription := None;
          interrupted := Some true |} |}.

(** Two sources playing back to back. *)
Definition twoPlaying : App :=
  {| status := ACTIVE; transcript := []; isModelTalking := true;
     nextStartTimeRef := 15; activeSourcesRef := [0; 1]%nat;
     sessionRef := Some {| closed := false |};
     nodes := [mkNode 3 (Some 10) false; mkNode 2 (Some 13) false] |}.

(** A decoder for the examples: one frame per character, and a chunk
    starting with ['!'] is malformed. *)
Definition testCodec : Codec :=
  {| decodeAudioData b :=
       if String.prefix "!" b then None
       else Some (Z.of_nat (String.length b)) |}.

(** * Properties *)

Definition Zsum (l : list Z) : Z := foldr Z.add 0 l.

(** The state [enqueue] leaves after a successful decode, and after a
    failed one. *)
Definition enqueued (d currentTime : Z) (s : App) : App :=
  {| status := status s; transcript := transcript s; isModelTalking := true;
     nextStartTimeRef := Z.max (nextStartTimeRef s) currentTime + d;
     activeSourcesRef := set_add (length (nodes s)) (activeSourcesRef s);
     sessionRef := sessionRef s;
     nodes := nodes s ++ [mkNode d (Some (Z.max (nextStartTimeRef s) currentTime)) false] |}.

Definition undecoded (currentTime : Z) (s : App) : App :=
  {| status := status s; transcript := transcript s; isModelTalking := true;
     nextStartTimeRef := Z.max (nextStartTimeRef s) currentTime;
     activeSourcesRef := activeSourcesRef s;
     sessionRef := sessionRef s;
     nodes := nodes s |}.

(** The store after [stop] on one reference with its error swallowed,
    and after the loop over a set. *)
Definition stop_in (ns : list AudioBufferSourceNode) (source : nat) :
    list AudioBufferSourceNode :=
  match ns !! source with
  | Some n =>
      match startedAt n with
      | Some _ => <[source := stop_node n]> ns
      | None => ns
      end
  | None => ns
  end.

Definition stop_all (active : list nat) (ns : list AudioBufferSourceNode) :
    list AudioBufferSourceNode :=
  foldl stop_in ns active.

(** Every reference in the active set is to a started source. *)
Definition started (s : App) (source : nat) : Prop :=
  is_Some (nodes s !! source ≫= startedAt).

Definition active_started (s : App) : Prop :=
  Forall (started s) (activeSourcesRef s).

(** The state after a completed barge-in. *)
Definition interrupted_with (ns : list AudioBufferSourceNode) (s : App) : App :=
  {| status := status s; transcript := transcript s; isModelTalking := false;
     nextStartTimeRef := 0; activeSourcesRef := []; sessionRef := sessionRef s;
     nodes := ns |}.

Definition interrupted_state (s : App) : App :=
  interrupted_with (stop_all (activeSourcesRef s) (nodes s)) s.

(** What the transcription branch applies to the transcript. *)
Definition fragment (v : Variant) (message : LiveServerMessage) (dateNow : Z) :
    list Message → list Message :=
  match serverContent message ≫= outputTranscription with
  | Some o => updateTranscript v interviewer (transcriptionText o) dateNow
  | None =>
      match serverContent message ≫= inputTranscription with
      | Some i => updateTranscript v candidate (transcriptionText i) dateNow
      | None => id
      end
  end.

(** The message carries a barge-in signal. *)
Definition barges (message : LiveServerMessage) : bool :=
  truthy_bool (serverContent message ≫= interrupted).

(** The part of [onmessage] after the audio branch. *)
Definition after_audio (v : Variant) (message : LiveServerMessage)
    (dateNow : Z) : JS unit := λ s,
  when (barges message) (handleInterrupt v)
       (setTranscript (fragment v message dateNow) s).

(** Events that reset the cursor, and the clock reading and duration
    of a chunk that an event schedules without a barge-in. *)
Definition interrupts (e : Event) : bool :=
  match e with
  | Inbound m _ _ => barges m
  | _ => false
  end.

Definition scheduled `{Codec} (e : Event) : option (Z * Z) :=
  match e with
  | Inbound m currentTime _ =>
      if barges m then None
      else b ← truthy_string (base64Audio m);
           d ← decodeAudioData b;
           Some (currentTime, d)
  | _ => None
  end.

(** The audio chunk of a message, if any, fails to decode. *)
Definition undecodable `{Codec} (message : LiveServerMessage) : bool :=
  match truthy_string (base64Audio message) with
  | Some b => bool_decide (decodeAudioData b = None)
  | None => false
  end.

Definition decodes `{Codec} (e : Event) : Prop :=
  match e with
  | Inbound m _ _ => undecodable m = false
  | _ => True
  end.

(** The scheduler invariants. *)
Definition talking_iff_active (s : App) : Prop :=
  isModelTalking s = true ↔ activeSourcesRef s ≠ [].

Definition ends_before_cursor (s : App) : Prop :=
  ∀ i n, nodes s !! i = Some n →
    ∃ t, startedAt n = Some t ∧ t + duration n ≤ nextStartTimeRef s.

Definition no_overlap (ns : list AudioBufferSourceNode) : Prop :=
  ∀ i j ni nj, (i < j)%nat → ns !! i = Some ni → ns !! j = Some nj →
    ∃ ti tj, startedAt ni = Some ti ∧ startedAt nj = Some tj
             ∧ ti + duration ni ≤ tj.

(** [next] is [prev] with one fragment taken in: merged into the last
    segment when that has the role of the fragment and was created less
    than 3000 ms before, appended as a segment of its own otherwise. *)
Definition fragment_applied (r : Role) (t : string) (now : Z)
    (prev next : list Message) : Prop :=
  (next = prev ++ [mkMessage r t now]
   ∧ ∀ init last, prev = init ++ [last] →
       ¬ (role last = r ∧ now - timestamp last < 3000))
  ∨ ∃ init last,
      prev = init ++ [last] ∧ role last = r ∧ now - timestamp last < 3000
      ∧ next = init ++ [mkMessage r (text last +:+ " " +:+ t) (timestamp last)].

(** Creation timestamps never go back along the sequence. *)
Definition creation_ordered (l : list Message) : Prop :=
  ∀ i j a b, (i ≤ j)%nat → l !! i = Some a → l !! j = Some b →
    timestamp a ≤ timestamp b.

(** ** Sequences of fragments *)

(** A transcript fragment as it reaches the aggregator. *)
Record Fragment := mkFragment {
  fragmentRole : Role;
  fragmentText : string;
  arrival : Z
}.

(** The aggregator applied to fragments in arrival order. *)
Definition appendAll (v : Variant) (fs : list Fragment) (prev : list Message) :
    list Message :=
  foldl (λ tr f, updateTranscript v (fragmentRole f) (fragmentText f) (arrival f) tr)
        prev fs.

(** Texts written one after the other with single spaces between. *)
Fixpoint spaced (l : list string) : string :=
  match l with
  | [] => ""
  | t :: l' =>
      match l' with
      | [] => t
      | _ :: _ => t +:+ " " +:+ spaced l'
      end
  end.

(** Neighbouring segments of one role were created 3000 ms apart or
    more. *)
Definition same_role_apart (l : list Message) : Prop :=
  ∀ i a b, l !! i = Some a → l !! S i = Some b → role a = role b →
    3000 ≤ timestamp b - timestamp a.

(** ** Sources and events, for the properties of whole runs *)

(** A source that was started and not stopped. *)
Definition live (s : App) (source : nat) : Prop :=
  ∃ n, nodes s !! source = Some n ∧ is_Some (startedAt n) ∧ stopped n = false.

(** The active set holds each reference once, every active source is
    live, and every source in the store was started. *)
Definition scheduler_wf (s : App) : Prop :=
  NoDup (activeSourcesRef s)
  ∧ Forall (live s) (activeSourcesRef s)
  ∧ Forall (λ n, is_Some (startedAt n)) (nodes s).

(** The event is a message whose audio chunk decodes. *)
Definition decoded `{Codec} (e : Event) : bool :=
  match e with
  | Inbound m _ _ =>
      match truthy_string (base64Audio m) with
      | Some b => bool_decide (is_Some (decodeAudioData b))
      | None => false
      end
  | _ => false
  end.

(** The event is a message with a transcription of either side. *)
Definition transcribes (e : Event) : bool :=
  match e with
  | Inbound m _ _ =>
      bool_decide (is_Some (serverContent m ≫= outputTranscription)
                   ∨ is_Some (serverContent m ≫= inputTranscription))
  | _ => false
  end.

(** Two states that differ in [sessionRef] at most. *)
Definition same_but_session (s1 s2 : App) : Prop :=
  status s1 = status s2 ∧ transcript s1 = transcript s2
  ∧ isModelTalking s1 = isModelTalking s2
  ∧ nextStartTimeRef s1 = nextStartTimeRef s2
  ∧ activeSourcesRef s1 = activeSourcesRef s2
  ∧ nodes s1 = nodes s2.

(** What may become of a source in the store: stopped, and nothing
    else. *)
Definition kept (n n' : AudioBufferSourceNode) : Prop :=
  duration n' = duration n ∧ startedAt n' = startedAt n
  ∧ (stopped n = true → stopped n' = true).

(** ** The session around the scheduler

    The rest of the component state that [startInterview], the channel
    callbacks and the buttons of the session view read and write, with
    the record above as its core.  [API_KEY] is [process.env.API_KEY];
    [sent] lists the arguments of [sendRealtimeInput], oldest first. *)

Record InterviewRole := {
  roleId : string;
  title : string;
  description : string
}.

Inductive EvidenceStrength := Strong | Moderate | Weak.

Record ClaimedSkill := {
  skillName : string;
  level : string;
  evidenceStrength : EvidenceStrength
}.

Record PreInterviewReport := {
  claimedSkills : list ClaimedSkill;
  verificationPlan : string;
  targetedQuestions : list string
}.

Inductive RealtimeInput :=
| Media (blob : string)
| Text (t : string).

Record Component := mkComponent {
  core : App;
  error : option string;
  selectedRole : option InterviewRole;
  preInterviewReport : option PreInterviewReport;
  API_KEY : option string;
  sent : list RealtimeInput
}.

Definition set_core (a : App) (c : Component) : Component :=
  mkComponent a (error c) (selectedRole c) (preInterviewReport c) (API_KEY c) (sent c).
Definition setError (e : option string) (c : Component) : Component :=
  mkComponent (core c) e (selectedRole c) (preInterviewReport c) (API_KEY c) (sent c).
Definition setSelectedRole (r : option InterviewRole) (c : Component) : Component :=
  mkComponent (core c) (error c) r (preInterviewReport c) (API_KEY c) (sent c).
Definition setPreInterviewReport (r : option PreInterviewReport) (c : Component) :
    Component :=
  mkComponent (core c) (error c) (selectedRole c) r (API_KEY c) (sent c).
Definition sendRealtimeInput (i : RealtimeInput) (c : Component) : Component :=
  mkComponent (core c) (error c) (selectedRole c) (preInterviewReport c) (API_KEY c)
              (sent c ++ [i]).

(** A handler of the core run inside the component. *)
Definition inCore (m : JS unit) (c : Component) : Component :=
  set_core (exec m (core c)) c.

(** [startInterview] up to its [try] block ([setSkillGraph], state of
    the presentation only, is left out). *)
Definition startInterview (v : Variant) (c : Component) : Component :=
  match selectedRole c with
  | None => c
  | Some _ =>
      match v with
      | part_001 => setError None (inCore (modify (setStatus CONNECTING)) c)
      | part_002 =>
          match truthy_string (API_KEY c) with
          | None => setError (Some "Critical Error: API Key not detected.") c
          | Some _ => setError None (inCore (modify (setStatus CONNECTING)) c)
          end
      end
  end.

(** The [catch] of [startInterview]; [message] is [err.message]. *)
Definition startFailed (v : Variant) (message : option string) (c : Component) :
    Component :=
  let fallback :=
    match v with
    | part_001 => "Failed to start interview. Check microphone permissions."
    | part_002 => "Failed to initialize interview terminal."
    end in
  inCore (modify (setStatus IDLE))
         (setError (Some (default fallback (truthy_string message))) c).

(** [sessionRef.current = await sessionPromise] *)
Definition sessionResolved (c : Component) : Component :=
  inCore (modify (set_sessionRef (Some {| closed := false |}))) c.

(** The state written by [onopen]. *)
Definition onopen (c : Component) : Component :=
  inCore (modify (setStatus ACTIVE)) c.

Definition onerror (v : Variant) (c : Component) : Component :=
  let message :=
    match v with
    | part_001 => "Communication lost. Please try reconnecting."
    | part_002 => "Connection Error. The session has been interrupted."
    end in
  inCore (endInterview v) (setError (Some message) c).

Definition requestEvaluation (v : Variant) (c : Component) : Component :=
  let request :=
    match v with
    | part_001 => "Please provide the end-of-interview summary now as per your instructions."
    | part_002 => "Provide the interview summary now based on our conversation."
    end in
  match sessionRef (core c) with
  | Some _ => sendRealtimeInput (Text request) c
  | None => c
  end.

(** [scriptProcessor.onaudioprocess] of the second variant; [blob] is
    [createBlob(inputData)]. *)
Definition onaudioprocess (blob : string) (c : Component) : Component :=
  match sessionRef (core c) with
  | Some _ => sendRealtimeInput (Media blob) c
  | None => c
  end.

(** The click handler of "Return to Dashboard". *)
Definition returnToDashboard (c : Component) : Component :=
  setPreInterviewReport None
    (inCore (modify (setStatus IDLE))
       (inCore (modify (setTranscript (λ _, []))) c)).

(** What happens around the second variant of the component. *)
Inductive Action :=
| Channel (e : Event)
| SelectRole (r : InterviewRole)
| StartInterview
| StartFailed (message : option string)
| SessionResolved
| Open
| Error_
| AudioProcess (blob : string)
| RequestEvaluation
| ReturnToDashboard.

Definition act `{Codec} (c : Component) (a : Action) : Component :=
  match a with
  | Channel e => inCore (handler part_002 e) c
  | SelectRole r => setSelectedRole (Some r) c
  | StartInterview => startInterview part_002 c
  | StartFailed message => startFailed part_002 message c
  | SessionResolved => sessionResolved c
  | Open => onopen c
  | Error_ => onerror part_002 c
  | AudioProcess blob => onaudioprocess blob c
  | RequestEvaluation => requestEvaluation part_002 c
  | ReturnToDashboard => returnToDashboard c
  end.

Definition acts `{Codec} (l : list Action) (c : Component) : Component :=
  foldl act c l.

Definition initialComponent (key : option string) : Component :=
  {| core := initialApp; error := None; selectedRole := None;
     preInterviewReport := None; API_KEY := key; sent := [] |}.

(** ** Labels of the skill graph

    A JavaScript string as its UTF-16 code units. *)
Definition dots : list Z := [46; 46].

(** [name.length > 12 ? name.slice(0, 10) + '..' : name] *)
Definition nodeLabel (name : list Z) : list Z :=
  if decide (12 < Z.of_nat (length name)) then js_slice name 0 10 ++ dots
  else name.

(** Actions other than an inbound message and the completion of a
    source. *)
Definition lifecycle (a : Action) : bool :=
  match a with
  | Channel (Inbound _ _ _) | Channel (Ended _) => false
  | _ => true
  end.

(** ** Transcript aggregator *)

Section Aggregator.
Implicit Types (prev init : list Message) (last : Message) (r : Role).

Lemma js_at_last {A} (l : list A) (x : A) :
  js_at (l ++ [x]) (Z.of_nat (length (l ++ [x])) - 1) = Some x.
Proof.
  unfold js_at. rewrite length_app. cbn [length].
  rewrite decide_True by lia.
  replace (Z.to_nat _) with (length l + 0)%nat by lia.
  by rewrite lookup_app_r, Nat.add_0_r, Nat.sub_diag by lia.
Qed.

Lemma js_slice_but_last {A} (l : list A) (x : A) :
  js_slice (l ++ [x]) 0 (-1) = l.
Proof.
  unfold js_slice. rewrite length_app. cbn [length].
  repeat case_decide; try lia.
  replace (Z.to_nat (Z.min _ _)) with 0%nat by lia.
  replace (Z.to_nat _) with (length l) by lia.
  by rewrite drop_0, take_app_length.
Qed.

Lemma Part001_merge r t now init last :
  role last = r → now - timestamp last < 3000 →
  Part001.updateTranscript r t now (init ++ [last])
  = init ++ [with_text last (text last +:+ " " +:+ t)].
Proof.
  intros Hr Hw. unfold Part001.updateTranscript.
  rewrite js_at_last, js_slice_but_last.
  by rewrite !bool_decide_eq_true_2.
Qed.

Lemma Part001_fresh r t now init last :
  ¬ (role last = r ∧ now - timestamp last < 3000) →
  Part001.updateTranscript r t now (init ++ [last])
  = (init ++ [last]) ++ [mkMessage r t now].
Proof.
  intros Hn. unfold Part001.updateTranscript. rewrite js_at_last.
  destruct (bool_decide (role last = r)) eqn:E1;
    destruct (bool_decide (now - timestamp last < 3000)) eqn:E2; try done.
  apply bool_decide_eq_true in E1, E2. tauto.
Qed.

Lemma variants_agree v r t now prev :
  updateTranscript v r t now prev = Part001.updateTranscript r t now prev.
Proof. by destruct v. Qed.

(** The two outcomes of a call. *)
Lemma updateTranscript_cases v r t now prev :
  updateTranscript v r t now prev = prev ++ [mkMessage r t now]
  ∨ ∃ init last,
      prev = init ++ [last] ∧ role last = r ∧ now - timestamp last < 3000
      ∧ updateTranscript v r t now prev
        = init ++ [with_text last (text last +:+ " " +:+ t)].
Proof.
  rewrite variants_agree.
  destruct prev as [|m prev'] using rev_ind; [by left|].
  destruct (decide (role m = r ∧ now - timestamp m < 3000)) as [[Hr Hw]|Hn].
  - right. exists prev', m. by rewrite Part001_merge.
  - left. by rewrite Part001_fresh.
Qed.

Lemma updateTranscript_length v r t now prev :
  (length prev ≤ length (updateTranscript v r t now prev) ≤ length prev + 1)%nat.
Proof.
  destruct (updateTranscript_cases v r t now prev)
    as [-> | (init & last & -> & _ & _ & ->)];
    rewrite ?length_app; cbn; lia.
Qed.

Lemma creation_ordered_snoc prev m :
  creation_ordered prev → (∀ a, a ∈ prev → timestamp a ≤ timestamp m) →
  creation_ordered (prev ++ [m]).
Proof.
  intros Hord Hle i j a b Hij Hi Hj.
  apply lookup_app_Some in Hj as [Hj|[Hlen Hj]].
  - rewrite lookup_app_l in Hi by (apply lookup_lt_Some in Hj; lia).
    by eapply Hord.
  - apply list_lookup_singleton_Some in Hj as [Hj0 <-].
    apply lookup_app_Some in Hi as [Hi|[_ Hi]].
    + apply Hle. by eapply list_elem_of_lookup_2.
    + by apply list_lookup_singleton_Some in Hi as [_ <-].
Qed.

Lemma creation_ordered_timestamps l k :
  timestamp <$> l = timestamp <$> k → creation_ordered l → creation_ordered k.
Proof.
  intros Heq Hord i j a b Hij Hi Hj.
  assert (∀ n x, k !! n = Some x → ∃ y, l !! n = Some y ∧ timestamp y = timestamp x)
    as Hback.
  { intros n x Hn. apply (f_equal (fmap timestamp)) in Hn.
    rewrite <- list_lookup_fmap, <- Heq, list_lookup_fmap in Hn.
    destruct (l !! n) as [y|]; [|done]. exists y. split; [done|]. by injection Hn. }
  destruct (Hback _ _ Hi) as (a' & Ha & <-).
  destruct (Hback _ _ Hj) as (b' & Hb & <-).
  by eapply Hord.
Qed.

End Aggregator.

Section Scheduler.
Context `{Codec}.

Lemma enqueue_decoded base64 currentTime d s :
  decodeAudioData base64 = Some d →
  enqueue base64 currentTime s = (Normal tt, enqueued d currentTime s).
Proof.
  intros Hd. unfold enqueue, enqueued, mbind, JS_bind, modify, gets, mret, JS_ret.
  rewrite Hd. unfold start, createBufferSource. cbn.
  rewrite lookup_app_r by lia. rewrite Nat.sub_diag. cbn.
  rewrite insert_app_r_alt by lia. rewrite Nat.sub_diag. reflexivity.
Qed.

Lemma enqueue_undecoded base64 currentTime s :
  decodeAudioData base64 = None →
  enqueue base64 currentTime s = (Throw DecodeError, undecoded currentTime s).
Proof.
  intros Hd. unfold enqueue, undecoded, mbind, JS_bind, modify, gets, throw.
  rewrite Hd. reflexivity.
Qed.

(** *** Stopping sources *)

Lemma set_nodes_id s : set_nodes (nodes s) s = s.
Proof. by destruct s. Qed.

Lemma stop_started source s :
  started s source →
  stop source s = (Normal tt, set_nodes (stop_in (nodes s) source) s).
Proof.
  unfold started, stop, stop_in. intros [t Ht].
  destruct (nodes s !! source) as [n|]; [|done]. cbn in Ht.
  by destruct (startedAt n).
Qed.

Lemma try_stop source s :
  try_ignore (stop source) s
  = (Normal tt, set_nodes (stop_in (nodes s) source) s).
Proof.
  unfold try_ignore, stop, stop_in.
  destruct (nodes s !! source) as [n|]; [|by rewrite set_nodes_id].
  destruct (startedAt n); [done|by rewrite set_nodes_id].
Qed.

Lemma stop_in_lookup ns source i n :
  ns !! i = Some n →
  stop_in ns source !! i
  = Some (if decide (i = source ∧ is_Some (startedAt n)) then stop_node n else n).
Proof.
  intros Hi. unfold stop_in.
  destruct (decide (i = source)) as [->|Hne].
  - rewrite Hi. destruct (startedAt n) eqn:E.
    + rewrite list_lookup_insert_eq by (by eapply lookup_lt_Some).
      by rewrite decide_True by (split; [done|by eexists]).
    + rewrite Hi, decide_False; [done|]. intros [_ [? ?]]; done.
  - rewrite decide_False by tauto.
    destruct (ns !! source) as [m|]; [|done].
    destruct (startedAt m); [|done].
    by rewrite list_lookup_insert_ne.
Qed.

Lemma stop_in_length ns source : length (stop_in ns source) = length ns.
Proof.
  unfold stop_in. destruct (ns !! source) as [n|]; [|done].
  destruct (startedAt n); [|done]. by rewrite length_insert.
Qed.

Lemma stop_all_length active ns : length (stop_all active ns) = length ns.
Proof.
  unfold stop_all. revert ns.
  induction active as [|a active IH]; intros ns; [done|].
  cbn. by rewrite IH, stop_in_length.
Qed.

Lemma stop_all_lookup active ns i n :
  ns !! i = Some n →
  stop_all active ns !! i
  = Some (if decide (i ∈ active ∧ is_Some (startedAt n)) then stop_node n else n).
Proof.
  unfold stop_all. revert ns n.
  induction active as [|a active IH]; intros ns n Hi.
  - cbn. rewrite Hi, decide_False; [done|]. intros [Hin _]. by apply elem_of_nil in Hin.
  - cbn. erewrite IH by (by apply stop_in_lookup). f_equal.
    destruct (decide (i = a ∧ is_Some (startedAt n))) as [[-> Hs]|Hn];
      repeat destruct (decide _) as [?|?]; try done; exfalso; cbn in *;
      repeat match goal with
             | Hc : context [_ ∈ _ :: _] |- _ => rewrite elem_of_cons in Hc
             end; intuition congruence.
Qed.

Lemma started_after_stop s source x :
  started s x → started (set_nodes (stop_in (nodes s) source) s) x.
Proof.
  unfold started. intros [t Ht]. cbn.
  destruct (nodes s !! x) as [n|] eqn:E; [|done]. cbn in Ht.
  rewrite (stop_in_lookup _ _ _ _ E). cbn.
  case_decide; cbn; rewrite Ht; by eexists.
Qed.

Lemma forEach_try_stop active s :
  forEach (λ x, try_ignore (stop x)) active s
  = (Normal tt, set_nodes (stop_all active (nodes s)) s).
Proof.
  revert s. induction active as [|a active IH]; intros s.
  - cbn. by rewrite set_nodes_id.
  - cbn [forEach]. unfold mbind, JS_bind. rewrite try_stop, IH.
    by destruct s.
Qed.

Lemma forEach_stop active s :
  Forall (started s) active →
  forEach stop active s = (Normal tt, set_nodes (stop_all active (nodes s)) s).
Proof.
  revert s. induction active as [|a active IH]; intros s Hst.
  - cbn. by rewrite set_nodes_id.
  - apply Forall_cons in Hst as [Ha Hst].
    cbn [forEach]. unfold mbind, JS_bind. rewrite stop_started by done.
    rewrite IH; [by destruct s|].
    eapply Forall_impl; [exact Hst|]. intros x. apply started_after_stop.
Qed.

(** Whatever happens, the loop writes to the store of nodes only. *)
Lemma forEach_stop_frame active s :
  ∃ c ns, forEach stop active s = (c, set_nodes ns s).
Proof.
  revert s. induction active as [|a active IH]; intros s.
  - exists (Normal tt), (nodes s). cbn. by rewrite set_nodes_id.
  - cbn [forEach]. unfold mbind, JS_bind.
    destruct (stop a s) as [[[]|e] s1] eqn:E.
    + assert (∃ ns1, s1 = set_nodes ns1 s) as [ns1 ->].
      { unfold stop in E. destruct (nodes s !! a) as [n|]; [|done].
        destruct (startedAt n); [|done]. injection E as <-. by eexists. }
      destruct (IH (set_nodes ns1 s)) as (c & ns & ->).
      exists c, ns. by destruct s.
    + exists (Throw e), (nodes s). rewrite set_nodes_id.
      unfold stop in E. destruct (nodes s !! a) as [n|]; [|by injection E as <- <-].
      destruct (startedAt n); [done|by injection E as <- <-].
Qed.

(** *** The barge-in handler *)

Lemma Part002_handleInterrupt s :
  Part002.handleInterrupt s = (Normal tt, interrupted_state s).
Proof.
  unfold Part002.handleInterrupt, mbind, JS_bind, gets.
  by rewrite forEach_try_stop.
Qed.

Lemma Part001_handleInterrupt s :
  active_started s →
  Part001.handleInterrupt s = (Normal tt, interrupted_state s).
Proof.
  intros Hst. unfold Part001.handleInterrupt, mbind, JS_bind, gets.
  by rewrite forEach_stop.
Qed.

Lemma handleInterrupt_started v s :
  active_started s → handleInterrupt v s = (Normal tt, interrupted_state s).
Proof.
  destruct v; cbn; [apply Part001_handleInterrupt|intros _; apply Part002_handleInterrupt].
Qed.

Lemma handleInterrupt_frame v s :
  ∃ ns, handleInterrupt v s = (Normal tt, interrupted_with ns s)
        ∨ ∃ e, handleInterrupt v s = (Throw e, set_nodes ns s).
Proof.
  destruct v; cbn;
    [|eexists; left; apply Part002_handleInterrupt].
  unfold Part001.handleInterrupt, mbind, JS_bind, gets.
  destruct (forEach_stop_frame (activeSourcesRef s) s) as (c & ns & E).
  exists ns. change (forEach (λ x, stop x)) with (forEach stop).
  rewrite E. destruct c as [[]|e]; [by left|right; by eexists].
Qed.


(** *** The message handler *)

Lemma transcribe_fragment v m dateNow s :
  transcribe v m dateNow s = (Normal tt, setTranscript (fragment v m dateNow) s).
Proof.
  unfold transcribe, fragment.
  destruct (serverContent m ≫= outputTranscription); [done|].
  destruct (serverContent m ≫= inputTranscription); [done|].
  by destruct s.
Qed.

Lemma onmessage_unfold v m currentTime dateNow s :
  onmessage v m currentTime dateNow s
  = match truthy_string (base64Audio m) with
    | Some b =>
        match decodeAudioData b with
        | Some d => after_audio v m dateNow (enqueued d currentTime s)
        | None => (Throw DecodeError, undecoded currentTime s)
        end
    | None => after_audio v m dateNow s
    end.
Proof.
  unfold onmessage, after_audio, barges, mbind at 1 2, JS_bind.
  destruct (truthy_string (base64Audio m)) as [b|].
  - destruct (decodeAudioData b) as [d|] eqn:E.
    + by rewrite (enqueue_decoded _ _ _ _ E), transcribe_fragment.
    + by rewrite (enqueue_undecoded _ _ _ E).
  - cbn. by rewrite transcribe_fragment.
Qed.

Lemma onended_exec source s :
  exec (onended source) s
  = let active := set_delete source (activeSourcesRef s) in
    mkApp (status s) (transcript s)
          (if decide (active = []) then false else isModelTalking s)
          (nextStartTimeRef s) active (sessionRef s) (nodes s).
Proof.
  unfold exec, onended, mbind, JS_bind, modify, gets, set_size. cbn.
  by destruct (set_delete source (activeSourcesRef s)).
Qed.

Lemma endInterview_exec v s :
  ∃ session, exec (endInterview v) s
             = setStatus ENDED (set_sessionRef session s).
Proof.
  destruct v; cbn; unfold exec, Part001.endInterview, Part002.endInterview,
    mbind, JS_bind, modify, gets, when; cbn.
  - destruct (sessionRef s) as [l|] eqn:E; cbn.
    + by eexists.
    + exists None. destruct s; cbn in *; by subst.
  - exists None. by destruct (sessionRef s).
Qed.

Lemma after_audio_started v m dateNow s :
  active_started s →
  after_audio v m dateNow s
  = (Normal tt,
     if barges m then interrupted_state (setTranscript (fragment v m dateNow) s)
     else setTranscript (fragment v m dateNow) s).
Proof.
  intros Hst. unfold after_audio. destruct (barges m); [|done].
  cbn. by rewrite handleInterrupt_started.
Qed.

Lemma after_audio_quiet v m dateNow s :
  barges m = false →
  after_audio v m dateNow s
  = (Normal tt, setTranscript (fragment v m dateNow) s).
Proof. intros Hb. unfold after_audio. by rewrite Hb. Qed.

Lemma after_audio_frame v m dateNow s :
  let s1 := setTranscript (fragment v m dateNow) s in
  after_audio v m dateNow s = (Normal tt, s1)
  ∨ barges m = true
    ∧ ∃ ns, after_audio v m dateNow s = (Normal tt, interrupted_with ns s1)
            ∨ ∃ e, after_audio v m dateNow s = (Throw e, set_nodes ns s1).
Proof.
  intros s1. unfold after_audio. fold s1.
  destruct (barges m); [right; split; [done|]|by left].
  cbn. apply handleInterrupt_frame.
Qed.

(** *** Active sources are started sources *)

Lemma started_grow s s' x :
  nodes s `prefix_of` nodes s' → started s x → started s' x.
Proof.
  unfold started. intros [k ->] [t Ht].
  destruct (nodes s !! x) as [n|] eqn:E; [|done].
  rewrite (lookup_app_l_Some _ _ _ _ E). by eexists.
Qed.

Lemma active_below_store s x :
  active_started s → x ∈ activeSourcesRef s → (x < length (nodes s))%nat.
Proof.
  unfold active_started. rewrite Forall_forall. intros Hst Hx.
  destruct (Hst _ Hx) as [t Ht].
  destruct (nodes s !! x) eqn:E; [by eapply lookup_lt_Some|done].
Qed.

Lemma set_add_fresh s :
  active_started s →
  set_add (length (nodes s)) (activeSourcesRef s)
  = activeSourcesRef s ++ [length (nodes s)].
Proof.
  intros Hst. unfold set_add. case_decide as Hin; [|done].
  apply (active_below_store _ _ Hst) in Hin. lia.
Qed.

Lemma active_started_enqueued d currentTime s :
  active_started s → active_started (enqueued d currentTime s).
Proof.
  intros Hst. unfold active_started. cbn [activeSourcesRef enqueued].
  rewrite set_add_fresh by done. apply Forall_app. split.
  - eapply Forall_impl; [exact Hst|]. intros x. apply started_grow.
    cbn. by apply prefix_app_r.
  - apply Forall_singleton. unfold started. cbn.
    rewrite lookup_app_r, Nat.sub_diag by lia. by eexists.
Qed.

Lemma step_active_started v s e :
  active_started s → active_started (step v s e).
Proof.
  intros Hst. unfold step, exec. destruct e as [m currentTime dateNow|source| |]; cbn [handler].
  - rewrite onmessage_unfold.
    destruct (truthy_string (base64Audio m)) as [b|];
      [destruct (decodeAudioData b) as [d|]|]; [| done |].
    + rewrite after_audio_started by (by apply active_started_enqueued).
      destruct (barges m); cbn; [by apply Forall_nil|].
      by apply (active_started_enqueued d currentTime s).
    + rewrite after_audio_started by done.
      destruct (barges m); cbn; [by apply Forall_nil|done].
  - fold (exec (onended source) s). rewrite onended_exec.
    unfold active_started, set_delete. cbn. apply Forall_forall.
    intros x [_ Hx]%list_elem_of_filter. revert x Hx. by apply Forall_forall.
  - fold (exec (endInterview v) s).
    by destruct (endInterview_exec v s) as [? ->].
  - done.
Qed.

Lemma run_snoc v es e s : run v (es ++ [e]) s = step v (run v es s) e.
Proof. unfold run. by rewrite foldl_app. Qed.

Lemma run_active_started v es :
  active_started (run v es initialApp).
Proof.
  induction es as [|e es IH] using rev_ind; [by apply Forall_nil|].
  rewrite run_snoc. by apply step_active_started.
Qed.

(** *** The talking flag *)

Lemma set_add_nonempty x l : set_add x l ≠ [].
Proof.
  unfold set_add. case_decide as Hin.
  - intros ->. by apply elem_of_nil in Hin.
  - by destruct l.
Qed.

Lemma step_talking v s e :
  active_started s → decodes e →
  talking_iff_active s → talking_iff_active (step v s e).
Proof.
  intros Hst Hdec Hinv. unfold step, exec.
  destruct e as [m currentTime dateNow|source| |]; cbn [handler].
  - rewrite onmessage_unfold. cbn in Hdec. unfold undecodable in Hdec.
    destruct (truthy_string (base64Audio m)) as [b|];
      [destruct (decodeAudioData b) as [d|]|]; [| done |].
    + rewrite after_audio_started by (by apply active_started_enqueued).
      destruct (barges m); cbn; [done|].
      split; [intros _; apply set_add_nonempty|done].
    + rewrite after_audio_started by done.
      destruct (barges m); cbn; [done|exact Hinv].
  - fold (exec (onended source) s). rewrite onended_exec.
    unfold talking_iff_active in *. cbn. case_decide as Hd;
      [rewrite Hd; split; [done|intros Hne; by destruct Hne]|].
    split; [done|]. intros _. apply Hinv. intros Hnil.
    apply Hd. unfold set_delete. by rewrite Hnil.
  - fold (exec (endInterview v) s).
    by destruct (endInterview_exec v s) as [? ->].
  - exact Hinv.
Qed.

Lemma run_talking v es :
  Forall decodes es → talking_iff_active (run v es initialApp).
Proof.
  induction es as [|e es IH] using rev_ind; intros Hdec.
  - by split.
  - apply Forall_app in Hdec as [Hes He].
    apply (proj1 (Forall_singleton _ _)) in He. rewrite run_snoc.
    apply step_talking; [apply run_active_started|exact He|by apply IH].
Qed.

(** *** The cursor *)

Lemma step_quiet v s e :
  interrupts e = false →
  match scheduled e with
  | Some (currentTime, d) =>
      nodes (step v s e)
      = nodes s ++ [mkNode d (Some (Z.max (nextStartTimeRef s) currentTime)) false]
      ∧ nextStartTimeRef (step v s e) = Z.max (nextStartTimeRef s) currentTime + d
  | None =>
      nodes (step v s e) = nodes s
      ∧ nextStartTimeRef s ≤ nextStartTimeRef (step v s e)
  end.
Proof.
  intros Hq. unfold step, exec, scheduled.
  destruct e as [m currentTime dateNow|source| |]; cbn [handler].
  - cbn in Hq. rewrite Hq, onmessage_unfold.
    destruct (truthy_string (base64Audio m)) as [b|]; cbn;
      [destruct (decodeAudioData b) as [d|]; cbn|].
    + by rewrite after_audio_quiet.
    + split; [done|lia].
    + by rewrite after_audio_quiet.
  - fold (exec (onended source) s). by rewrite onended_exec.
  - fold (exec (endInterview v) s).
    by destruct (endInterview_exec v s) as [? ->].
  - done.
Qed.

Lemma scheduled_nonneg e currentTime d :
  NonNegDurations → scheduled e = Some (currentTime, d) → 0 ≤ d.
Proof.
  intros Hnn. unfold scheduled. destruct e as [m ? ?| | |]; try done.
  destruct (barges m); [done|].
  destruct (truthy_string (base64Audio m)) as [b|]; [|done]. cbn.
  destruct (decodeAudioData b) as [d'|] eqn:E; [|done]. cbn.
  intros [= _ <-]. by eapply Hnn.
Qed.

Lemma step_cursor v s e :
  NonNegDurations →
  nextStartTimeRef s ≤ nextStartTimeRef (step v s e)
  ∨ interrupts e = true ∧ nextStartTimeRef (step v s e) = 0.
Proof.
  intros Hnn. destruct (interrupts e) eqn:Hq.
  - destruct e as [m currentTime dateNow| | |]; try done. cbn in Hq.
    unfold step, exec. cbn [handler]. rewrite onmessage_unfold.
    assert (∀ s1, nextStartTimeRef s ≤ nextStartTimeRef s1 →
      nextStartTimeRef s ≤ nextStartTimeRef (after_audio v m dateNow s1).2
      ∨ true = true ∧ nextStartTimeRef (after_audio v m dateNow s1).2 = 0) as Hrest.
    { intros s1 Hle.
      destruct (after_audio_frame v m dateNow s1) as [->|[_ [ns [->|[e ->]]]]];
        cbn; auto. }
    destruct (truthy_string (base64Audio m)) as [b|];
      [destruct (decodeAudioData b) as [d|] eqn:E|].
    + apply Hrest. cbn. apply Hnn in E. lia.
    + left. cbn. lia.
    + by apply Hrest.
  - left. pose proof (step_quiet v s e Hq) as Hs.
    destruct (scheduled e) as [[currentTime d]|] eqn:E.
    + destruct Hs as [_ ->]. apply scheduled_nonneg in E; [lia|done].
    + by destruct Hs.
Qed.

Lemma run_cursor v es s :
  NonNegDurations → Forall (λ e, interrupts e = false) es →
  nextStartTimeRef s ≤ nextStartTimeRef (run v es s).
Proof.
  intros Hnn. induction es as [|e es IH] using rev_ind; intros Hq; [done|].
  apply Forall_app in Hq as [Hes He].
  apply (proj1 (Forall_singleton _ _)) in He. rewrite run_snoc.
  destruct (step_cursor v (run v es s) e Hnn) as [Hle|[Hi _]]; [|congruence].
  specialize (IH Hes). lia.
Qed.

(** *** Segments in arrival order *)

Lemma step_ordered v s e :
  NonNegDurations → interrupts e = false →
  ends_before_cursor s → no_overlap (nodes s) →
  ends_before_cursor (step v s e) ∧ no_overlap (nodes (step v s e)).
Proof.
  intros Hnn Hq Hend Hno. pose proof (step_quiet v s e Hq) as Hs.
  destruct (scheduled e) as [[currentTime d]|] eqn:E.
  - destruct Hs as [Hns Hcur]. apply scheduled_nonneg in E; [|done].
    set (t := Z.max (nextStartTimeRef s) currentTime) in *.
    split.
    + intros i n. rewrite Hns, Hcur. intros Hi.
      apply lookup_app_Some in Hi as [Hi|[_ Hi]].
      * destruct (Hend _ _ Hi) as (ti & -> & Hle). exists ti. split; [done|lia].
      * apply list_lookup_singleton_Some in Hi as [_ <-]. exists t. by cbn.
    + intros i j ni nj Hij. rewrite Hns. intros Hi Hj.
      apply lookup_app_Some in Hj as [Hj|[Hlen Hj]].
      * rewrite lookup_app_l in Hi by (apply lookup_lt_Some in Hj; lia).
        by eapply Hno.
      * apply list_lookup_singleton_Some in Hj as [Hj0 <-].
        rewrite lookup_app_l in Hi by lia.
        destruct (Hend _ _ Hi) as (ti & -> & Hle).
        exists ti, t. cbn. split_and!; [done|done|lia].
  - destruct Hs as [Hns Hcur]. split; [|by rewrite Hns].
    intros i n. rewrite Hns. intros Hi.
    destruct (Hend _ _ Hi) as (ti & -> & Hle). exists ti. split; [done|lia].
Qed.

Lemma run_ordered v es :
  NonNegDurations → Forall (λ e, interrupts e = false) es →
  ends_before_cursor (run v es initialApp)
  ∧ no_overlap (nodes (run v es initialApp)).
Proof.
  intros Hnn. induction es as [|e es IH] using rev_ind; intros Hq.
  - split; [intros i n Hi|intros i j ni nj _ Hi]; cbn in Hi;
      by rewrite lookup_nil in Hi.
  - apply Forall_app in Hq as [Hes He].
    apply (proj1 (Forall_singleton _ _)) in He. rewrite run_snoc.
    destruct (IH Hes). by apply step_ordered.
Qed.

(** Chunks enqueued back to back while the clock reads [T0]. *)
Lemma run_gapless v es ds T0 s :
  NonNegDurations →
  Forall2 (λ e d, scheduled e = Some (T0, d)) es ds →
  let base := Z.max (nextStartTimeRef s) T0 in
  nodes (run v es s)
  = nodes s ++ imap (λ i d, mkNode d (Some (base + Zsum (take i ds))) false) ds
  ∧ Z.max (nextStartTimeRef (run v es s)) T0 = base + Zsum ds.
Proof.
  intros Hnn Hes. revert s. induction Hes as [|e d es ds He Hes IH]; intros s base.
  - cbn. rewrite app_nil_r. split; [done|lia].
  - assert (interrupts e = false) as Hq.
    { unfold scheduled in He. destruct e as [m ? ?| | |]; try done.
      cbn. by destruct (barges m). }
    pose proof (step_quiet v s e Hq) as Hs. rewrite He in Hs.
    destruct Hs as [Hns Hcur]. fold base in Hns, Hcur.
    pose proof (scheduled_nonneg _ _ _ Hnn He) as Hd.
    change (run v (e :: es) s) with (run v es (step v s e)).
    destruct (IH (step v s e)) as [-> ->]. rewrite Hns, Hcur.
    replace (Z.max (base + d) T0) with (base + d) by lia.
    split; [|unfold Zsum; cbn; lia].
    rewrite <- app_assoc. f_equal. cbn. f_equal; [do 2 f_equal; lia|].
    apply imap_ext. intros i x _. unfold Zsum. cbn. do 2 f_equal. lia.
Qed.

(** *** The transcript across a message *)

Lemma onmessage_transcript v m currentTime dateNow s :
  transcript (exec (onmessage v m currentTime dateNow) s)
  = if undecodable m then transcript s
    else fragment v m dateNow (transcript s).
Proof.
  unfold exec, undecodable. rewrite onmessage_unfold.
  assert (∀ s1, transcript (after_audio v m dateNow s1).2
                = fragment v m dateNow (transcript s1)) as Hrest.
  { intros s1.
    by destruct (after_audio_frame v m dateNow s1) as [->|[_ [ns [->|[e ->]]]]]. }
  destruct (truthy_string (base64Audio m)) as [b|];
    [destruct (decodeAudioData b) as [d|] eqn:E|].
  - by rewrite bool_decide_eq_false_2, Hrest.
  - by rewrite bool_decide_eq_true_2.
  - apply Hrest.
Qed.

End Scheduler.

(** * The claims *)

(** The test decoder never yields a negative duration. *)
Lemma testCodec_nonneg : NonNegDurations (H := testCodec).
Proof.
  intros b d. cbn. destruct (String.prefix "!" b); [done|].
  intros [= <-]. lia.
Qed.

(** C1. A chunk that decodes is started at
    [max(nextStartTime, clock.now())] and the cursor is set to that
    start plus the duration of the segment.  Chunks of durations
    [d1..dn] enqueued while the clock reads [T0], from a cursor not
    beyond [T0], start at [T0] plus the durations before them; and
    without a barge-in no segment starts before an earlier one ends. *)
Theorem enqueue_schedules_gapless `{Codec} (v : Variant) :
  NonNegDurations →
  (∀ base64 currentTime d s,
     decodeAudioData base64 = Some d →
     let s' := exec (enqueue base64 currentTime) s in
     nodes s' = nodes s
                ++ [mkNode d (Some (Z.max (nextStartTimeRef s) currentTime)) false]
     ∧ nextStartTimeRef s' = Z.max (nextStartTimeRef s) currentTime + d
     ∧ length (nodes s) ∈ activeSourcesRef s')
  ∧ (∀ es ds T0 s,
       nextStartTimeRef s ≤ T0 →
       Forall2 (λ e d, scheduled e = Some (T0, d)) es ds →
       ∀ i d, ds !! i = Some d →
         nodes (run v es s) !! (length (nodes s) + i)%nat
         = Some (mkNode d (Some (T0 + Zsum (take i ds))) false))
  ∧ (∀ es, Forall (λ e, interrupts e = false) es →
       no_overlap (nodes (run v es initialApp))).
Proof.
  intros Hnn. split_and!.
  - intros base64 currentTime d s Hd s'. subst s'. unfold exec.
    rewrite (enqueue_decoded _ _ _ _ Hd). cbn. split_and!; [done|done|].
    unfold set_add. case_decide; [done|]. apply elem_of_app. right.
    by apply list_elem_of_singleton.
  - intros es ds T0 s Hle Hes i d Hi.
    destruct (run_gapless v es ds T0 s Hnn Hes) as [-> _].
    rewrite lookup_app_r by lia.
    replace (length (nodes s) + i - length (nodes s))%nat with i by lia.
    rewrite list_lookup_imap, Hi. cbn. do 3 f_equal. lia.
  - intros es Hq. by apply run_ordered.
Qed.

(** Three chunks at clock reading 10: the third starts at 10 + 3 + 2. *)
Lemma enqueue_schedules_gapless_witness :
  nodes (run (H := testCodec) part_002
           [Inbound (audioMessage "abc") 10 0; Inbound (audioMessage "de") 10 7;
            Inbound (audioMessage "fghi") 10 9] initialApp) !! 2%nat
  = Some (mkNode 4 (Some 15) false).
Proof.
  pose proof (enqueue_schedules_gapless (H := testCodec) part_002 testCodec_nonneg)
    as (_ & Hgap & _).
  apply (Hgap _ [3; 2; 4] 10 initialApp).
  - cbn. lia.
  - repeat constructor.
  - reflexivity.
Defined.

(** C2, as stated, fails: after a chunk that does not decode the cursor
    and the talking flag differ from what they were. *)
Lemma decode_failure_changes_state :
  let s' := exec (onmessage (H := testCodec) part_002 (audioMessage "!") 20 0)
                 initialApp in
  undecodable (H := testCodec) (audioMessage "!") = true
  ∧ ¬ (nextStartTimeRef s' = nextStartTimeRef initialApp
       ∧ activeSourcesRef s' = activeSourcesRef initialApp
       ∧ isModelTalking s' = isModelTalking initialApp).
Proof. split; [reflexivity|]. intros (Hc & _ & _). vm_compute in Hc. done. Qed.

(** C2, amended.  A chunk whose decoding fails is dropped: the handler
    ends with the decoding error, the active set, the store of sources
    and the transcript are as before.  The writes made before the
    decode stay: the cursor is [max(nextStartTime, clock.now())], so
    never lower than before, and the talking flag is set. *)
Theorem decode_failure_drops_chunk `{Codec} (v : Variant)
    (m : LiveServerMessage) (currentTime dateNow : Z) (s : App) :
  undecodable m = true →
  ∃ s', onmessage v m currentTime dateNow s = (Throw DecodeError, s')
        ∧ activeSourcesRef s' = activeSourcesRef s
        ∧ nodes s' = nodes s
        ∧ transcript s' = transcript s
        ∧ nextStartTimeRef s' = Z.max (nextStartTimeRef s) currentTime
        ∧ isModelTalking s' = true.
Proof.
  unfold undecodable. intros Hu. rewrite onmessage_unfold.
  destruct (truthy_string (base64Audio m)) as [b|]; [|done].
  apply bool_decide_eq_true in Hu. rewrite Hu.
  by eexists.
Qed.

Lemma decode_failure_drops_chunk_witness :
  ∃ s', onmessage (H := testCodec) part_001 (audioMessage "!") 20 0 initialApp
        = (Throw DecodeError, s')
        ∧ activeSourcesRef s' = []
        ∧ nodes s' = []
        ∧ transcript s' = []
        ∧ nextStartTimeRef s' = 20
        ∧ isModelTalking s' = true.
Proof.
  apply (decode_failure_drops_chunk (H := testCodec) part_001
           (audioMessage "!") 20 0 initialApp).
  reflexivity.
Defined.

(** C3, as stated, fails: after a chunk that does not decode the
    talking flag is set while the active set is empty. *)
Lemma talking_without_active_source :
  ¬ talking_iff_active
      (run (H := testCodec) part_002 [Inbound (audioMessage "!") 20 0] initialApp).
Proof. intros [Hc _]. by apply Hc. Qed.

(** C3, amended.  In every state reached by events whose audio chunks
    all decode, the talking flag is set iff the active set is
    non-empty; from such a state the flag goes from set to cleared
    only on an event that takes the active set from non-empty to
    empty. *)
Theorem talking_iff_active_when_decoding `{Codec} (v : Variant)
    (es : list Event) :
  Forall decodes es →
  talking_iff_active (run v es initialApp)
  ∧ ∀ e, decodes e →
      let s := run v es initialApp in
      let s' := step v s e in
      talking_iff_active s'
      ∧ (isModelTalking s = true → isModelTalking s' = false →
         activeSourcesRef s ≠ [] ∧ activeSourcesRef s' = []).
Proof.
  intros Hdec. pose proof (run_talking v es Hdec) as Hinv.
  split; [done|]. intros e He s s'.
  assert (talking_iff_active s') as Hinv'.
  { apply step_talking; [apply run_active_started|done|done]. }
  split; [done|]. intros Ht Hf. split; [by apply Hinv|].
  destruct (activeSourcesRef s') eqn:E; [done|].
  assert (isModelTalking s' = true) by (apply Hinv'; by rewrite E). congruence.
Qed.

Lemma talking_iff_active_when_decoding_witness :
  talking_iff_active
    (run (H := testCodec) part_001
       [Inbound (audioMessage "abc") 10 0; Inbound (audioMessage "de") 11 0;
        Ended 0; Ended 1] initialApp).
Proof.
  apply (talking_iff_active_when_decoding (H := testCodec) part_001).
  repeat constructor.
Defined.

(** C4. [append(role, text, arrivalTimestamp)]: when a last segment
    exists, has the incoming role and was created less than 3000 ms
    before the arrival, it is replaced by one with the old text, a
    space and the new text, under the original creation timestamp;
    otherwise the segment [(role, text, arrivalTimestamp)] is appended.
    Same-role fragments at 0 and 1000 ms coalesce into one segment
    created at 0; a same-role fragment at 3500 ms starts a new segment;
    a fragment of the other role always starts a new segment. *)
Theorem updateTranscript_coalesces (v : Variant) :
  (∀ r t now init last,
     role last = r → now - timestamp last < 3000 →
     updateTranscript v r t now (init ++ [last])
     = init ++ [mkMessage (role last) (text last +:+ " " +:+ t) (timestamp last)])
  ∧ (∀ r t now init last,
       ¬ (role last = r ∧ now - timestamp last < 3000) →
       updateTranscript v r t now (init ++ [last])
       = init ++ [last; mkMessage r t now])
  ∧ (∀ r t now, updateTranscript v r t now [] = [mkMessage r t now])
  ∧ (∀ r t now init last,
       role last ≠ r →
       updateTranscript v r t now (init ++ [last])
       = init ++ [last; mkMessage r t now])
  ∧ (let ab := updateTranscript v interviewer "six" 1000
                 (updateTranscript v interviewer "five" 0 []) in
     ab = [mkMessage interviewer "five six" 0]
     ∧ updateTranscript v interviewer "seven" 3500 ab
       = [mkMessage interviewer "five six" 0; mkMessage interviewer "seven" 3500]
     ∧ updateTranscript v candidate "eight" 1200 ab
       = [mkMessage interviewer "five six" 0; mkMessage candidate "eight" 1200]).
Proof.
  split_and!.
  - intros r t now init last Hr Hw.
    by rewrite variants_agree, Part001_merge.
  - intros r t now init last Hn.
    by rewrite variants_agree, Part001_fresh, <- app_assoc.
  - by destruct v.
  - intros r t now init last Hr.
    rewrite variants_agree, Part001_fresh, <- app_assoc; [done|tauto].
  - by destruct v.
Qed.

(** A run of the coalescing rule on a two-segment transcript. *)
Lemma updateTranscript_coalesces_witness :
  updateTranscript part_001 candidate "there" 2999
    [mkMessage interviewer "go on" (-500); mkMessage candidate "hello" 0]
  = [mkMessage interviewer "go on" (-500); mkMessage candidate "hello there" 0].
Proof.
  apply (proj1 (updateTranscript_coalesces part_001) candidate "there" 2999
           [mkMessage interviewer "go on" (-500)] (mkMessage candidate "hello" 0)).
  - reflexivity.
  - cbn. lia.
Defined.



(** C6. The transcript is append-only: a call of the aggregator
    either appends one segment at the end or replaces the last
    segment only; every segment but the last is left as it is, no
    position is lost, role and creation timestamp of every position
    are kept, and with a clock that does not run backwards the
    creation timestamps stay in order. *)
Theorem updateTranscript_append_only (v : Variant) (r : Role) (t : string)
    (now : Z) (prev : list Message) :
  let next := updateTranscript v r t now prev in
  (next = prev ++ [mkMessage r t now]
   ∨ ∃ init last last', prev = init ++ [last] ∧ next = init ++ [last'])
  ∧ (∀ i, (i + 1 < length prev)%nat → next !! i = prev !! i)
  ∧ (length prev ≤ length next ≤ length prev + 1)%nat
  ∧ (∀ i m, prev !! i = Some m →
       ∃ m', next !! i = Some m' ∧ role m' = role m ∧ timestamp m' = timestamp m)
  ∧ ((∀ m, m ∈ prev → timestamp m ≤ now) →
     creation_ordered prev → creation_ordered next).
Proof.
  intros next. subst next.
  destruct (updateTranscript_cases v r t now prev)
    as [-> | (init & last & -> & Hr & Hw & ->)].
  - split; [|split; [|split; [|split]]].
    + by left.
    + intros i Hi. by rewrite lookup_app_l by lia.
    + rewrite length_app. cbn. lia.
    + intros i m Hi. exists m. by rewrite (lookup_app_l_Some _ _ _ _ Hi).
    + intros Hle Hord. by apply creation_ordered_snoc.
  - split; [|split; [|split; [|split]]].
    + right. by eexists _, _, _.
    + intros i. rewrite length_app. cbn. intros Hi.
      by rewrite !lookup_app_l by lia.
    + rewrite !length_app. cbn. lia.
    + intros i m Hi. apply lookup_app_Some in Hi as [Hi|[Hlen Hi]].
      * exists m. by rewrite (lookup_app_l_Some _ _ _ _ Hi).
      * apply list_lookup_singleton_Some in Hi as [Hi0 <-].
        eexists. rewrite lookup_app_r by done.
        replace (i - length init)%nat with 0%nat by lia. by cbn.
    + intros _. apply creation_ordered_timestamps.
      by rewrite !fmap_app.
Qed.

(** The ordering clause on a transcript of two segments. *)
Lemma updateTranscript_append_only_witness :
  creation_ordered
    (updateTranscript part_002 candidate "yes" 4000
       [mkMessage interviewer "ready" 0; mkMessage candidate "hm" 900]).
Proof.
  apply (updateTranscript_append_only part_002 candidate "yes" 4000
           [mkMessage interviewer "ready" 0; mkMessage candidate "hm" 900]).
  - intros m Hm. repeat (apply elem_of_cons in Hm as [->|Hm]; [cbn; lia|]).
    by apply elem_of_nil in Hm.
  - intros i j a b Hij Hi Hj.
    destruct i as [|[|i]], j as [|[|j]]; cbn in Hi, Hj; try done; try lia;
      injection Hi as <-; injection Hj as <-; cbn; lia.
Defined.

(** C7. With non-negative durations, no event but a barge-in lowers
    the cursor, and a barge-in that does sets it to 0: an enqueue
    keeps it or moves it forward, and so does every run without a
    barge-in. *)
Theorem cursor_never_decreases `{Codec} (v : Variant) :
  NonNegDurations →
  (∀ s e,
     nextStartTimeRef s ≤ nextStartTimeRef (step v s e)
     ∨ interrupts e = true ∧ nextStartTimeRef (step v s e) = 0)
  ∧ (∀ s base64 currentTime,
       nextStartTimeRef s ≤ nextStartTimeRef (exec (enqueue base64 currentTime) s))
  ∧ (∀ es s,
       Forall (λ e, interrupts e = false) es →
       nextStartTimeRef s ≤ nextStartTimeRef (run v es s)).
Proof.
  intros Hnn. split_and!.
  - intros s e. by apply step_cursor.
  - intros s base64 currentTime. unfold exec.
    destruct (decodeAudioData base64) as [d|] eqn:E.
    + rewrite (enqueue_decoded _ _ _ _ E). cbn. apply Hnn in E. lia.
    + rewrite (enqueue_undecoded _ _ _ E). cbn. lia.
  - intros es s Hq. by apply run_cursor.
Qed.

Lemma cursor_never_decreases_witness :
  7 ≤ nextStartTimeRef
        (run (H := testCodec) part_002
           [Inbound (audioMessage "abc") 10 0; Ended 0; Inbound (audioMessage "!") 30 0]
           (set_nextStartTimeRef 7 initialApp)).
Proof.
  pose proof (cursor_never_decreases (H := testCodec) part_002 testCodec_nonneg)
    as (_ & _ & Hrun).
  apply (Hrun _ (set_nextStartTimeRef 7 initialApp)).
  repeat constructor.
Defined.

(** C8.  [endInterview] sets the status to [ENDED] and leaves the
    cursor, the active set and the sources as they are; after one
    chunk of three frames enqueued at clock reading 5 the cursor is
    still 8 and the source still active. *)
Theorem endInterview_keeps_scheduler (v : Variant) :
  (∀ s, let s' := exec (endInterview v) s in
        status s' = ENDED
        ∧ nextStartTimeRef s' = nextStartTimeRef s
        ∧ activeSourcesRef s' = activeSourcesRef s
        ∧ nodes s' = nodes s)
  ∧ (let s' := run (H := testCodec) v
                 [Inbound (audioMessage "abc") 5 0; EndInterview] initialApp in
     status s' = ENDED ∧ nextStartTimeRef s' = 8
     ∧ activeSourcesRef s' = [0%nat]
     ∧ nodes s' = [mkNode 3 (Some 5) false]).
Proof.
  split.
  - intros s s'. subst s'. by destruct (endInterview_exec v s) as [? ->].
  - by destruct v.
Qed.

Lemma updateTranscript_applied v r t now prev :
  fragment_applied r t now prev (updateTranscript v r t now prev).
Proof.
  rewrite variants_agree.
  destruct prev as [|m prev' _] using rev_ind.
  - left. split; [done|]. intros init last Heq. by destruct init.
  - destruct (decide (role m = r ∧ now - timestamp m < 3000)) as [[Hr Hw]|Hn].
    + right. exists prev', m. rewrite Part001_merge by done.
      unfold with_text. by rewrite Hr.
    + left. rewrite Part001_fresh by done. split; [done|].
      intros init last Heq. by apply app_inj_tail in Heq as [_ <-].
Qed.

(** C9, as stated, fails: a message that carries the transcriptions of
    both sides next to an audio chunk that does not decode leaves the
    transcript as it was; the interviewer fragment is not appended, in
    either variant. *)
Lemma failed_chunk_drops_both_fragments :
  let m := audioAndBoth "!" "Tell me about B-Trees" "uh" in
  let s1 := exec (onmessage (H := testCodec) part_001 m 0 1500) initialApp in
  let s2 := exec (onmessage (H := testCodec) part_002 m 0 1500) initialApp in
  serverContent m ≫= outputTranscription
  = Some {| transcriptionText := "Tell me about B-Trees" |}
  ∧ serverContent m ≫= inputTranscription = Some {| transcriptionText := "uh" |}
  ∧ transcript s1 = [] ∧ transcript s2 = []
  ∧ ¬ fragment_applied interviewer "Tell me about B-Trees" 1500
        (transcript initialApp) (transcript s1)
  ∧ ¬ fragment_applied interviewer "Tell me about B-Trees" 1500
        (transcript initialApp) (transcript s2).
Proof.
  assert (¬ fragment_applied interviewer "Tell me about B-Trees" 1500 [] []) as Hno.
  { intros [[Heq _]|(init & last & Heq & _)]; [done|by destruct init]. }
  split_and!; try reflexivity; exact Hno.
Qed.

(** C9, amended.  A message changes the transcript by at most one
    fragment, and by none when its audio chunk fails to decode: the
    handler has thrown before it reaches the transcriptions.  When the
    chunk, if there is one, decodes: with an output transcription
    present the interviewer fragment is the one taken in (merged into
    the last segment or appended after it), whatever the input
    transcription, which is dropped; the candidate fragment is taken in
    only when there is no output transcription; with neither the
    transcript is unchanged. *)
Theorem one_fragment_per_message `{Codec} (v : Variant)
    (m : LiveServerMessage) (currentTime dateNow : Z) (s : App) :
  let s' := exec (onmessage v m currentTime dateNow) s in
  (length (transcript s) ≤ length (transcript s') ≤ length (transcript s) + 1)%nat
  ∧ (undecodable m = true → transcript s' = transcript s)
  ∧ (undecodable m = false →
     (∀ o, serverContent m ≫= outputTranscription = Some o →
        fragment_applied interviewer (transcriptionText o) dateNow
          (transcript s) (transcript s'))
     ∧ (∀ i, serverContent m ≫= outputTranscription = None →
          serverContent m ≫= inputTranscription = Some i →
          fragment_applied candidate (transcriptionText i) dateNow
            (transcript s) (transcript s'))
     ∧ (serverContent m ≫= outputTranscription = None →
        serverContent m ≫= inputTranscription = None →
        transcript s' = transcript s)).
Proof.
  intros s'. subst s'. rewrite onmessage_transcript. unfold fragment.
  split; [|split].
  - destruct (undecodable m); [lia|].
    destruct (serverContent m ≫= outputTranscription);
      [apply updateTranscript_length|].
    destruct (serverContent m ≫= inputTranscription);
      [apply updateTranscript_length|cbn; lia].
  - by intros ->.
  - intros ->. split_and!.
    + intros o ->. apply updateTranscript_applied.
    + intros i -> ->. apply updateTranscript_applied.
    + by intros -> ->.
Qed.

Lemma one_fragment_per_message_witness :
  fragment_applied interviewer "Tell me about B-Trees" 1500 []
    (transcript
       (exec (onmessage (H := testCodec) part_002
                (audioAndBoth "abc" "Tell me about B-Trees" "uh") 0 1500)
             initialApp)).
Proof.
  apply (proj1 (proj2 (proj2 (one_fragment_per_message (H := testCodec) part_002
           (audioAndBoth "abc" "Tell me about B-Trees" "uh") 0 1500 initialApp))
           eq_refl)
           {| transcriptionText := "Tell me about B-Trees" |}).
  reflexivity.
Defined.

(** C10. The aggregators of the two variants are extensionally equal. *)
Theorem updateTranscript_variants_equal (r : Role) (t : string) (now : Z)
    (prev : list Message) :
  Part001.updateTranscript r t now prev = Part002.updateTranscript r t now prev.
Proof. reflexivity. Qed.

(** * Further properties of the aggregator *)

Lemma string_app_assoc (a b c : string) : (a +:+ b) +:+ c = a +:+ (b +:+ c).
Proof.
  induction a as [|x a IH]; [done|].
  change (String x ((a +:+ b) +:+ c) = String x (a +:+ (b +:+ c))).
  by rewrite IH.
Qed.

Lemma spaced_snoc (l : list string) (a t : string) :
  spaced (l ++ [a +:+ " " +:+ t]) = spaced (l ++ [a; t]).
Proof.
  induction l as [|x l IH]; [done|].
  cbn [app spaced]. rewrite IH.
  by destruct l.
Qed.

Lemma updateTranscript_outcome v r t now prev :
  (prev = [] ∧ updateTranscript v r t now prev = [mkMessage r t now])
  ∨ (∃ init last,
       prev = init ++ [last] ∧ role last = r ∧ now - timestamp last < 3000
       ∧ updateTranscript v r t now prev
         = init ++ [with_text last (text last +:+ " " +:+ t)])
  ∨ (∃ init last,
       prev = init ++ [last] ∧ ¬ (role last = r ∧ now - timestamp last < 3000)
       ∧ updateTranscript v r t now prev = init ++ [last; mkMessage r t now]).
Proof.
  rewrite variants_agree.
  destruct prev as [|m prev' _] using rev_ind; [by left|]. right.
  destruct (decide (role m = r ∧ now - timestamp m < 3000)) as [[Hr Hw]|Hn].
  - left. exists prev', m. by rewrite Part001_merge.
  - right. exists prev', m. by rewrite Part001_fresh, <- app_assoc.
Qed.

Lemma same_role_apart_step v r t now prev :
  same_role_apart prev → same_role_apart (updateTranscript v r t now prev).
Proof.
  intros Hinv.
  destruct (updateTranscript_outcome v r t now prev)
    as [[-> ->] | [(init & last & -> & Hr & Hw & ->) | (init & last & -> & Hn & ->)]].
  - intros i a b Ha Hb. by destruct i.
  - intros i a b Ha Hb Hab.
    assert (∀ j x, (init ++ [with_text last (text last +:+ " " +:+ t)]) !! j = Some x →
              ∃ y, (init ++ [last]) !! j = Some y
                   ∧ role y = role x ∧ timestamp y = timestamp x) as Hback.
    { intros j x Hj. apply lookup_app_Some in Hj as [Hj|[Hlen Hj]].
      - exists x. by rewrite (lookup_app_l_Some _ _ _ _ Hj).
      - apply list_lookup_singleton_Some in Hj as [Hj0 <-].
        exists last. rewrite lookup_app_r by done.
        replace (j - length init)%nat with 0%nat by lia. done. }
    destruct (Hback _ _ Ha) as (a' & Ha' & Hra & <-).
    destruct (Hback _ _ Hb) as (b' & Hb' & Hrb & <-).
    eapply Hinv; [done|done|congruence].
  - intros i a b Ha Hb Hab.
    replace (init ++ [last; mkMessage r t now])
      with ((init ++ [last]) ++ [mkMessage r t now]) in Ha, Hb
      by (by rewrite <- app_assoc).
    apply lookup_app_Some in Hb as [Hb|[Hlen Hb]].
    + rewrite lookup_app_l in Ha by (apply lookup_lt_Some in Hb; lia).
      by eapply Hinv.
    + apply list_lookup_singleton_Some in Hb as [Hb0 <-].
      rewrite length_app in Hlen, Hb0. cbn in Hlen, Hb0.
      assert (i = length init) as -> by lia.
      rewrite lookup_app_l in Ha by (rewrite length_app; cbn; lia).
      rewrite lookup_app_r, Nat.sub_diag in Ha by done.
      injection Ha as <-. cbn in *.
      destruct (decide (now - timestamp last < 3000)); [tauto|lia].
Qed.

(** X1. Whatever fragments arrive, with whatever clock readings, two
    neighbouring segments of the same role are never created less than
    3000 ms apart: a fragment that could have been merged is never
    appended as a segment of its own. *)
Theorem appendAll_same_role_apart (v : Variant) (fs : list Fragment)
    (prev : list Message) :
  same_role_apart prev → same_role_apart (appendAll v fs prev).
Proof.
  revert prev. induction fs as [|f fs IH]; intros prev Hinv; [done|].
  apply IH. by apply same_role_apart_step.
Qed.

Lemma appendAll_same_role_apart_witness :
  same_role_apart
    (appendAll part_002
       [mkFragment candidate "well" 3100; mkFragment candidate "yes" 3200]
       [mkMessage candidate "hm" 0]).
Proof.
  apply appendAll_same_role_apart.
  intros i a b Ha Hb. by destruct i.
Defined.

Lemma spaced_app (l k : list string) :
  l ≠ [] → k ≠ [] → spaced (l ++ k) = spaced l +:+ " " +:+ spaced k.
Proof.
  intros Hl Hk. induction l as [|x l IH]; [done|].
  destruct l as [|y l].
  - cbn. by destruct k.
  - change (spaced ((x :: y :: l) ++ k)) with (x +:+ " " +:+ spaced ((y :: l) ++ k)).
    rewrite IH by done.
    change (spaced (x :: y :: l)) with (x +:+ " " +:+ spaced (y :: l)).
    by rewrite !string_app_assoc.
Qed.

Lemma updateTranscript_text v r t now prev :
  spaced (text <$> updateTranscript v r t now prev)
  = spaced ((text <$> prev) ++ [t])
  ∧ ∃ m pre, last (updateTranscript v r t now prev) = Some m
             ∧ role m = r ∧ text m = pre +:+ t.
Proof.
  destruct (updateTranscript_outcome v r t now prev)
    as [[-> ->] | [(init & last & -> & Hr & Hw & ->) | (init & last & -> & Hn & ->)]].
  - split; [done|]. by exists (mkMessage r t now), "".
  - split.
    + rewrite !fmap_app. cbn. rewrite <- app_assoc. apply spaced_snoc.
    + rewrite last_snoc. eexists _, (text last +:+ " "). split_and!; [done|done|].
      cbn. by rewrite string_app_assoc.
  - split.
    + rewrite !fmap_app. cbn. by rewrite <- app_assoc.
    + replace (init ++ [last; mkMessage r t now])
        with ((init ++ [last]) ++ [mkMessage r t now]) by (by rewrite <- app_assoc).
      rewrite last_snoc. by exists (mkMessage r t now), "".
Qed.

Lemma updateTranscript_nonempty v r t now prev :
  updateTranscript v r t now prev ≠ [].
Proof.
  destruct (updateTranscript_cases v r t now prev)
    as [-> | (init & last & -> & _ & _ & ->)].
  - by destruct prev.
  - by destruct init.
Qed.

(** X2. No fragment text is lost, duplicated or reordered: after any
    sequence of fragments the texts of the transcript, written out
    with single spaces, are the earlier texts followed by the fragment
    texts in arrival order; and the last segment has the role of the
    last fragment and a text that ends with it. *)
Theorem appendAll_keeps_text (v : Variant) (fs : list Fragment)
    (prev : list Message) :
  spaced (text <$> appendAll v fs prev)
  = spaced ((text <$> prev) ++ (fragmentText <$> fs))
  ∧ ∀ f, last fs = Some f →
      ∃ m pre, last (appendAll v fs prev) = Some m
               ∧ role m = fragmentRole f ∧ text m = pre +:+ fragmentText f.
Proof.
  split.
  - revert prev. induction fs as [|f fs IH]; intros prev.
    + cbn. by rewrite app_nil_r.
    + change (appendAll v (f :: fs) prev)
        with (appendAll v fs
                (updateTranscript v (fragmentRole f) (fragmentText f) (arrival f) prev)).
      rewrite IH. rewrite fmap_cons, (cons_middle _ (text <$> prev)), app_assoc.
      destruct (updateTranscript_text v (fragmentRole f) (fragmentText f)
                  (arrival f) prev) as [Hsp _].
      destruct fs as [|g fs]; [cbn; by rewrite !app_nil_r|].
      assert (text <$> updateTranscript v (fragmentRole f) (fragmentText f)
                         (arrival f) prev ≠ []) as Hne1.
      { pose proof (updateTranscript_nonempty v (fragmentRole f) (fragmentText f)
                      (arrival f) prev).
        by destruct (updateTranscript _ _ _ _ _). }
      assert ((text <$> prev) ++ [fragmentText f] ≠ []) as Hne2
        by (by destruct (text <$> prev)).
      rewrite (spaced_app _ _ Hne1), (spaced_app _ _ Hne2) by done.
      by rewrite Hsp.
  - intros f Hf. apply last_Some in Hf as [fs' ->].
    unfold appendAll. rewrite foldl_app. cbn.
    by destruct (updateTranscript_text v (fragmentRole f) (fragmentText f)
                   (arrival f) (appendAll v fs' prev)) as [_ ?].
Qed.

Lemma appendAll_keeps_text_witness :
  ∃ m pre,
    last (appendAll part_001
            [mkFragment interviewer "Tell me" 0; mkFragment interviewer "more" 400]
            []) = Some m
    ∧ role m = interviewer ∧ text m = pre +:+ "more".
Proof.
  apply (proj2 (appendAll_keeps_text part_001
                  [mkFragment interviewer "Tell me" 0; mkFragment interviewer "more" 400]
                  []) (mkFragment interviewer "more" 400)).
  reflexivity.
Defined.

(** X3. A burst of fragments of one role, all arriving less than
    3000 ms after the segment they extend was created, ends as that
    one segment: its text is the old text and the fragment texts with
    single spaces, its creation timestamp is unchanged, and the
    segments before it are untouched. *)
Theorem appendAll_burst (v : Variant) (fs : list Fragment)
    (init : list Message) (m : Message) :
  Forall (λ f, fragmentRole f = role m ∧ arrival f - timestamp m < 3000) fs →
  appendAll v fs (init ++ [m])
  = init ++ [mkMessage (role m) (spaced (text m :: (fragmentText <$> fs)))
                       (timestamp m)].
Proof.
  revert m. induction fs as [|f fs IH]; intros m Hfs.
  - cbn. by destruct m.
  - apply Forall_cons in Hfs as [[Hr Hw] Hfs].
    change (appendAll v (f :: fs) (init ++ [m]))
      with (appendAll v fs
              (updateTranscript v (fragmentRole f) (fragmentText f) (arrival f)
                 (init ++ [m]))).
    rewrite variants_agree, Part001_merge by done.
    rewrite IH by done. cbn [with_text role timestamp text].
    do 2 f_equal. rewrite fmap_cons.
    change (spaced (text m :: fragmentText f :: (fragmentText <$> fs)))
      with (text m +:+ " " +:+ spaced (fragmentText f :: (fragmentText <$> fs))).
    destruct fs as [|g fs]; [done|].
    rewrite fmap_cons.
    change (spaced (fragmentText f :: fragmentText g :: (fragmentText <$> fs)))
      with (fragmentText f +:+ " " +:+ spaced (fragmentText g :: (fragmentText <$> fs))).
    change (spaced ((text m +:+ " " +:+ fragmentText f)
                    :: fragmentText g :: (fragmentText <$> fs)))
      with ((text m +:+ " " +:+ fragmentText f) +:+ " "
            +:+ spaced (fragmentText g :: (fragmentText <$> fs))).
    by rewrite !string_app_assoc.
Qed.

Lemma appendAll_burst_witness :
  appendAll part_002
    [mkFragment candidate "I" 100; mkFragment candidate "used" 900;
     mkFragment candidate "B-Trees" 2999]
    [mkMessage interviewer "Go on" (-50); mkMessage candidate "So" 0]
  = [mkMessage interviewer "Go on" (-50); mkMessage candidate "So I used B-Trees" 0].
Proof.
  apply (appendAll_burst part_002
           [mkFragment candidate "I" 100; mkFragment candidate "used" 900;
            mkFragment candidate "B-Trees" 2999]
           [mkMessage interviewer "Go on" (-50)] (mkMessage candidate "So" 0)).
  repeat constructor; cbn; lia.
Defined.

(** * Further properties of the scheduler *)

Section Playback.
Context `{Codec}.

Lemma step_scheduled v s e currentTime d :
  scheduled e = Some (currentTime, d) →
  ∃ m dateNow,
    e = Inbound m currentTime dateNow
    ∧ step v s e = setTranscript (fragment v m dateNow) (enqueued d currentTime s).
Proof.
  unfold scheduled. destruct e as [m t w| | |]; try done.
  destruct (barges m) eqn:Hb; [done|].
  destruct (truthy_string (base64Audio m)) as [b|] eqn:Hb64; [|done]. cbn.
  destruct (decodeAudioData b) as [d'|] eqn:Hd; [|done]. cbn.
  intros [= -> ->]. exists m, w. split; [done|].
  unfold step, exec. cbn [handler]. rewrite onmessage_unfold, Hb64, Hd.
  by rewrite after_audio_quiet.
Qed.

Lemma step_barge_in v s m currentTime dateNow :
  active_started s → barges m = true → undecodable m = false →
  ∃ s1, step v s (Inbound m currentTime dateNow) = interrupted_state s1
        ∧ active_started s1
        ∧ (nodes s1 = nodes s
           ∨ ∃ b d, truthy_string (base64Audio m) = Some b
                    ∧ decodeAudioData b = Some d
                    ∧ s1 = setTranscript (fragment v m dateNow)
                             (enqueued d currentTime s)).
Proof.
  intros Hst Hb Hu. unfold step, exec, undecodable in *. cbn [handler].
  rewrite onmessage_unfold.
  destruct (truthy_string (base64Audio m)) as [b|];
    [destruct (decodeAudioData b) as [d|] eqn:Hd|]; [| done |].
  - pose proof (active_started_enqueued d currentTime s Hst) as Hst'.
    rewrite after_audio_started, Hb by done.
    eexists. split_and!; [done|exact Hst'|]. right. by exists b, d.
  - rewrite after_audio_started, Hb by done.
    eexists. split_and!; [done|exact Hst|by left].
Qed.

(** X4. After a barge-in the stale cursor is forgotten: the next chunk
    that decodes starts at [max(0, ctx.currentTime)], the cursor is
    that start plus its duration, and it is the only active source. *)
Theorem enqueue_after_barge_in (v : Variant) (s : App)
    (m : LiveServerMessage) (t1 w1 : Z) (e : Event) (currentTime d : Z) :
  active_started s → barges m = true → undecodable m = false →
  scheduled e = Some (currentTime, d) →
  let s1 := step v s (Inbound m t1 w1) in
  let s2 := step v s1 e in
  nextStartTimeRef s1 = 0 ∧ activeSourcesRef s1 = []
  ∧ nodes s2 = nodes s1 ++ [mkNode d (Some (Z.max 0 currentTime)) false]
  ∧ nextStartTimeRef s2 = Z.max 0 currentTime + d
  ∧ activeSourcesRef s2 = [length (nodes s1)]
  ∧ isModelTalking s2 = true.
Proof.
  intros Hst Hb Hu He s1 s2. subst s2 s1.
  destruct (step_barge_in v s m t1 w1 Hst Hb Hu) as (s0 & -> & _ & _).
  destruct (step_scheduled v (interrupted_state s0) e _ _ He) as (m2 & w2 & -> & ->).
  by cbn.
Qed.

(** X5. A chunk that arrives in the message that carries the barge-in
    signal is scheduled and stopped by the same handler: its source is
    in the store, started and stopped, and is not active. *)
Theorem chunk_with_barge_in_is_stopped (v : Variant) (s : App)
    (m : LiveServerMessage) (currentTime dateNow : Z) (b : string) (d : Z) :
  active_started s →
  truthy_string (base64Audio m) = Some b → decodeAudioData b = Some d →
  barges m = true →
  let s' := step v s (Inbound m currentTime dateNow) in
  nodes s' !! length (nodes s)
  = Some (mkNode d (Some (Z.max (nextStartTimeRef s) currentTime)) true)
  ∧ length (nodes s') = S (length (nodes s))
  ∧ activeSourcesRef s' = [] ∧ nextStartTimeRef s' = 0
  ∧ isModelTalking s' = false.
Proof.
  intros Hst Hb64 Hd Hb s'. subst s'.
  unfold step, exec. cbn [handler]. rewrite onmessage_unfold, Hb64, Hd.
  rewrite after_audio_started, Hb by (by apply active_started_enqueued).
  cbn [snd nodes activeSourcesRef nextStartTimeRef isModelTalking
       interrupted_state interrupted_with setTranscript enqueued].
  rewrite stop_all_length, length_app. cbn [length].
  split_and!; try done; [|lia].
  erewrite stop_all_lookup
    by (rewrite lookup_app_r, Nat.sub_diag by lia; reflexivity).
  rewrite decide_True; [done|]. split; [|by eexists].
  unfold set_add. case_decide; [done|]. apply elem_of_app. right.
  by apply list_elem_of_singleton.
Qed.

End Playback.

Section Completion.
Context `{Codec}.

Lemma filter_all {A} (P : A → Prop) `{∀ x, Decision (P x)} (l : list A) :
  (∀ x, x ∈ l → P x) → filter P l = l.
Proof.
  induction l as [|x l IH]; intros Hall; [done|].
  rewrite filter_cons_True by (apply Hall; by left).
  f_equal. apply IH. intros y Hy. apply Hall. by right.
Qed.

Lemma run_ended v ids s :
  run v (Ended <$> ids) s
  = mkApp (status s) (transcript s)
          (if decide (ids = []) then isModelTalking s
           else if decide (filter (λ y, y ∉ ids) (activeSourcesRef s) = [])
                then false
                else isModelTalking s)
          (nextStartTimeRef s)
          (filter (λ y, y ∉ ids) (activeSourcesRef s))
          (sessionRef s) (nodes s).
Proof.
  induction ids as [|x ids IH] using rev_ind.
  - cbn. rewrite filter_all by (intros y _; apply not_elem_of_nil). by destruct s.
  - rewrite fmap_app. change (Ended <$> [x]) with [Ended x].
    rewrite run_snoc, IH. unfold step. cbn [handler]. rewrite onended_exec.
    cbn [status transcript isModelTalking nextStartTimeRef activeSourcesRef
         sessionRef nodes].
    assert (set_delete x (filter (λ y, y ∉ ids) (activeSourcesRef s))
            = filter (λ y, y ∉ ids ++ [x]) (activeSourcesRef s)) as Hdel.
    { unfold set_delete. rewrite list_filter_filter. apply list_filter_iff.
      intros y. rewrite elem_of_app, list_elem_of_singleton. tauto. }
    cbv zeta. rewrite Hdel.
    rewrite (decide_False (P := ids ++ [x] = [])) by (by destruct ids).
    f_equal.
    destruct (decide (filter (λ y, y ∉ ids ++ [x]) (activeSourcesRef s) = []))
      as [|Hnil]; [done|].
    destruct (decide (ids = [])); [done|].
    rewrite decide_False; [done|]. intros Hprev.
    apply Hnil. rewrite <- Hdel. unfold set_delete. by rewrite Hprev.
Qed.

(** X6. Once every active source has ended, in whatever order and
    with whatever other completions in between, the active set is
    empty and the talking flag is cleared; cursor, store, transcript
    and status are as before. *)
Theorem sources_play_out (v : Variant) (s : App) (ids : list nat) :
  ids ≠ [] → (∀ x, x ∈ activeSourcesRef s → x ∈ ids) →
  let s' := run v (Ended <$> ids) s in
  activeSourcesRef s' = [] ∧ isModelTalking s' = false
  ∧ nextStartTimeRef s' = nextStartTimeRef s ∧ nodes s' = nodes s
  ∧ transcript s' = transcript s ∧ status s' = status s.
Proof.
  intros Hne Hcover s'. subst s'. rewrite run_ended. cbn.
  assert (filter (λ y, y ∉ ids) (activeSourcesRef s) = []) as ->.
  { destruct (filter _ _) as [|y l] eqn:E; [done|].
    assert (y ∈ filter (λ y, y ∉ ids) (activeSourcesRef s)) as Hy
      by (rewrite E; by left).
    apply list_elem_of_filter in Hy as [Hy1 Hy2]. by apply Hcover in Hy2. }
  by rewrite decide_False, decide_True by done.
Qed.

(** X7. The completion of a source that is not in the active set (one
    stopped by a barge-in, or one that ended before) changes nothing
    while other sources are active. *)
Theorem stale_completion_is_ignored (s : App) (source : nat) :
  source ∉ activeSourcesRef s → activeSourcesRef s ≠ [] →
  onended source s = (Normal tt, s).
Proof.
  intros Hnin Hne. pose proof (onended_exec source s) as Hex.
  assert (set_delete source (activeSourcesRef s) = activeSourcesRef s) as Hdel.
  { apply filter_all. intros y Hy ->. done. }
  unfold exec in Hex. cbv zeta in Hex. rewrite Hdel in Hex.
  rewrite decide_False in Hex by done.
  destruct (onended source s) as [c s'] eqn:E. cbn in Hex. subst s'.
  f_equal; [|by destruct s].
  unfold onended, mbind, JS_bind, modify, gets, when in E. cbn in E.
  by destruct (bool_decide _); injection E as <- _.
Qed.

(** *** What every reachable state satisfies *)

Lemma wf_active_started s : scheduler_wf s → active_started s.
Proof.
  intros (_ & Hlive & _). eapply Forall_impl; [exact Hlive|].
  intros x (n & Hn & Hs & _). unfold started. by rewrite Hn.
Qed.

Lemma stop_all_started active ns :
  Forall (λ n, is_Some (startedAt n)) ns →
  Forall (λ n, is_Some (startedAt n)) (stop_all active ns).
Proof.
  rewrite !Forall_lookup. intros Hall i n' Hi.
  assert (is_Some (ns !! i)) as [n Hn].
  { apply lookup_lt_is_Some. rewrite <- (stop_all_length active).
    by eapply lookup_lt_Some. }
  rewrite (stop_all_lookup _ _ _ _ Hn) in Hi. injection Hi as <-.
  specialize (Hall _ _ Hn). by case_decide.
Qed.

Lemma wf_interrupted s :
  Forall (λ n, is_Some (startedAt n)) (nodes s) →
  scheduler_wf (interrupted_state s).
Proof.
  intros Hall. split_and!; cbn.
  - apply NoDup_nil_2.
  - by apply Forall_nil.
  - by apply stop_all_started.
Qed.

Lemma wf_enqueued d currentTime s :
  scheduler_wf s → scheduler_wf (enqueued d currentTime s).
Proof.
  intros Hwf. pose proof (wf_active_started s Hwf) as Hst.
  destruct Hwf as (Hnd & Hlive & Hall).
  unfold scheduler_wf. cbn [activeSourcesRef nodes enqueued].
  rewrite set_add_fresh by done. split_and!.
  - apply NoDup_app. split_and!; [done| |apply NoDup_singleton].
    intros x Hx ->%list_elem_of_singleton.
    apply (active_below_store _ _ Hst) in Hx. lia.
  - apply Forall_app. split.
    + eapply Forall_impl; [exact Hlive|].
      intros x (n & Hn & Hs & Hns). exists n. cbn [nodes enqueued].
      by rewrite (lookup_app_l_Some _ _ _ _ Hn).
    + apply Forall_singleton. eexists. cbn [nodes enqueued].
      rewrite lookup_app_r, Nat.sub_diag by lia. split_and!; [done| |done].
      by eexists.
  - apply Forall_app. split; [done|]. apply Forall_singleton. by eexists.
Qed.

Lemma step_wf v s e : scheduler_wf s → scheduler_wf (step v s e).
Proof.
  intros Hwf. pose proof (wf_active_started s Hwf) as Hst.
  unfold step, exec. destruct e as [m currentTime dateNow|source| |]; cbn [handler].
  - rewrite onmessage_unfold.
    destruct (truthy_string (base64Audio m)) as [b|];
      [destruct (decodeAudioData b) as [d|]|]; [| exact Hwf |].
    + pose proof (wf_enqueued d currentTime s Hwf) as Hwf'.
      rewrite after_audio_started by (by apply active_started_enqueued).
      destruct (barges m); cbn [snd]; [|exact Hwf'].
      apply wf_interrupted. by destruct Hwf' as (_ & _ & ?).
    + rewrite after_audio_started by done.
      destruct (barges m); cbn [snd]; [|exact Hwf].
      apply wf_interrupted. by destruct Hwf as (_ & _ & ?).
  - fold (exec (onended source) s). rewrite onended_exec.
    destruct Hwf as (Hnd & Hlive & Hall). split_and!; cbn; [| |done].
    + by apply NoDup_filter.
    + apply Forall_forall. intros x [_ Hx]%list_elem_of_filter.
      revert x Hx. by apply Forall_forall.
  - fold (exec (endInterview v) s).
    by destruct (endInterview_exec v s) as [? ->].
  - exact Hwf.
Qed.

(** X8. In every state the component reaches, the active set holds
    each source once, every active source is in the store, started and
    not stopped (so a stopped source is never active), and every source
    that was ever created has been started. *)
Theorem reachable_scheduler_wf (v : Variant) (es : list Event) :
  let s := run v es initialApp in
  NoDup (activeSourcesRef s)
  ∧ (∀ source, source ∈ activeSourcesRef s →
       ∃ n, nodes s !! source = Some n
            ∧ is_Some (startedAt n) ∧ stopped n = false)
  ∧ (∀ i n, nodes s !! i = Some n → is_Some (startedAt n))
  ∧ (∀ i n, nodes s !! i = Some n → stopped n = true → i ∉ activeSourcesRef s).
Proof.
  intros s. assert (scheduler_wf s) as (Hnd & Hlive & Hall).
  { subst s. induction es as [|e es IH] using rev_ind.
    - split_and!; [apply NoDup_nil_2|by apply Forall_nil|by apply Forall_nil].
    - rewrite run_snoc. by apply step_wf. }
  rewrite Forall_forall in Hlive. rewrite Forall_lookup in Hall.
  split_and!; [done|done|done|].
  intros i n Hi Hstop Hin. destruct (Hlive _ Hin) as (n' & Hn' & _ & Hns).
  congruence.
Qed.

(** X9. The store holds one source for each audio chunk that decoded,
    and nothing else: chunks that fail to decode and messages without
    audio create no source, and no source is ever removed. *)
Theorem one_source_per_decoded_chunk (v : Variant) (es : list Event) :
  length (nodes (run v es initialApp)) = length (filter (λ e, decoded e = true) es).
Proof.
  induction es as [|e es IH] using rev_ind; [done|].
  rewrite run_snoc, filter_app, length_app, <- IH.
  pose proof (run_active_started v es) as Hst.
  set (s := run v es initialApp) in *. clearbody s.
  unfold step, exec. destruct e as [m currentTime dateNow|source| |]; cbn [handler].
  - rewrite onmessage_unfold. cbn [filter decoded].
    unfold filter. cbn [list_filter]. unfold decoded.
    destruct (truthy_string (base64Audio m)) as [b|];
      [destruct (decodeAudioData b) as [d|] eqn:Hd|].
    + rewrite after_audio_started by (by apply active_started_enqueued).
      rewrite decide_True by (apply bool_decide_eq_true; by eexists).
      destruct (barges m); cbn [snd]; unfold interrupted_state, interrupted_with;
        cbn [nodes]; rewrite ?stop_all_length; cbn; by rewrite length_app.
    + rewrite decide_False; [cbn; by rewrite Nat.add_0_r|].
      intros [? ?]%bool_decide_eq_true. done.
    + rewrite after_audio_started by done.
      rewrite decide_False by done.
      destruct (barges m); cbn [snd]; unfold interrupted_state, interrupted_with;
        cbn [nodes]; rewrite ?stop_all_length; cbn; by rewrite Nat.add_0_r.
  - fold (exec (onended source) s). rewrite onended_exec. cbn. by rewrite Nat.add_0_r.
  - fold (exec (endInterview v) s).
    destruct (endInterview_exec v s) as [? ->]. cbn. by rewrite Nat.add_0_r.
  - cbn. by rewrite Nat.add_0_r.
Qed.

(** *** Sources keep their schedule *)

Lemma step_kept v s e i n :
  active_started s → nodes s !! i = Some n →
  ∃ n', nodes (step v s e) !! i = Some n' ∧ kept n n'.
Proof.
  intros Hst Hi.
  assert (∀ s1 active, nodes s1 !! i = Some n →
            ∃ n', stop_all active (nodes s1) !! i = Some n' ∧ kept n n') as Hstop.
  { intros s1 active Hs1. rewrite (stop_all_lookup _ _ _ _ Hs1).
    eexists. split; [done|]. by case_decide. }
  unfold step, exec. destruct e as [m currentTime dateNow|source| |]; cbn [handler].
  - rewrite onmessage_unfold.
    destruct (truthy_string (base64Audio m)) as [b|];
      [destruct (decodeAudioData b) as [d|]|].
    + rewrite after_audio_started by (by apply active_started_enqueued).
      destruct (barges m); cbn [snd].
      * apply Hstop. cbn. by apply lookup_app_l_Some.
      * exists n. split; [|done]. cbn. by apply lookup_app_l_Some.
    + by exists n.
    + rewrite after_audio_started by done.
      destruct (barges m); cbn [snd]; [by apply Hstop|by exists n].
  - fold (exec (onended source) s). rewrite onended_exec. by exists n.
  - fold (exec (endInterview v) s).
    destruct (endInterview_exec v s) as [? ->]. by exists n.
  - by exists n.
Qed.

(** X10. A source in the store is never removed or rescheduled: along
    every run it stays at its index with the duration and the start
    time it was given, and once stopped it stays stopped. *)
Theorem sources_keep_their_schedule (v : Variant) (es : list Event) (s : App)
    (i : nat) (n : AudioBufferSourceNode) :
  active_started s → nodes s !! i = Some n →
  ∃ n', nodes (run v es s) !! i = Some n'
        ∧ duration n' = duration n ∧ startedAt n' = startedAt n
        ∧ (stopped n = true → stopped n' = true).
Proof.
  revert s n. induction es as [|e es IH]; intros s n Hst Hi.
  - by exists n.
  - change (run v (e :: es) s) with (run v es (step v s e)).
    destruct (step_kept v s e i n Hst Hi) as (n1 & H1 & Hd1 & Hs1 & Hp1).
    destruct (IH (step v s e) n1 (step_active_started v s e Hst) H1)
      as (n2 & H2 & Hd2 & Hs2 & Hp2).
    exists n2. split_and!; [done|congruence|congruence|auto].
Qed.

(** *** The transcript along a run *)

Lemma step_transcript v s e :
  transcript (step v s e)
  = match e with
    | Inbound m _ dateNow =>
        if undecodable m then transcript s else fragment v m dateNow (transcript s)
    | _ => transcript s
    end.
Proof.
  unfold step. destruct e as [m currentTime dateNow|source| |]; cbn [handler].
  - apply onmessage_transcript.
  - by rewrite onended_exec.
  - by destruct (endInterview_exec v s) as [? ->].
  - done.
Qed.

(** X11. Along a run the transcript never gets shorter, and it grows
    by at most one segment for each message that carries a
    transcription; completions, session end and messages without a
    transcription leave it as it is. *)
Theorem transcript_grows_with_transcriptions (v : Variant) (es : list Event)
    (s : App) :
  (length (transcript s) ≤ length (transcript (run v es s))
   ≤ length (transcript s) + length (filter (λ e, transcribes e = true) es))%nat
  ∧ (Forall (λ e, transcribes e = false) es →
     transcript (run v es s) = transcript s).
Proof.
  assert (∀ e s0,
    (length (transcript s0) ≤ length (transcript (step v s0 e))
     ≤ length (transcript s0) + (if transcribes e then 1 else 0))%nat
    ∧ (transcribes e = false → transcript (step v s0 e) = transcript s0)) as Hstep.
  { intros e s0. rewrite step_transcript.
    destruct e as [m currentTime dateNow| | |]; cbn [transcribes];
      try (split; [lia|done]).
    unfold fragment.
    destruct (serverContent m ≫= outputTranscription) as [o|] eqn:Ho.
    - rewrite bool_decide_eq_true_2 by (left; by eexists).
      split; [|done]. destruct (undecodable m); [lia|].
      apply updateTranscript_length.
    - destruct (serverContent m ≫= inputTranscription) as [i|] eqn:Hi.
      + rewrite bool_decide_eq_true_2 by (right; by eexists).
        split; [|done]. destruct (undecodable m); [lia|].
        apply updateTranscript_length.
      + rewrite bool_decide_eq_false_2 by (intros [[? ?]|[? ?]]; done).
        destruct (undecodable m); cbn; (split; [lia|done]). }
  induction es as [|e es IH] using rev_ind.
  - cbn. split; [lia|done].
  - rewrite run_snoc, filter_app, length_app.
    destruct (Hstep e (run v es s)) as [Hlen Hsame].
    destruct IH as [IHlen IHsame]. split.
    + unfold filter at 2. cbn [list_filter].
      destruct (transcribes e); [rewrite decide_True by done|rewrite decide_False by done];
        cbn [length]; lia.
    + intros Hq. apply Forall_app in Hq as [Hes He].
      apply (proj1 (Forall_singleton _ _)) in He.
      rewrite Hsame by done. by apply IHsame.
Qed.

(** *** The two variants side by side *)

Lemma same_but_session_started s1 s2 :
  same_but_session s1 s2 → active_started s1 → active_started s2.
Proof.
  intros (_ & _ & _ & _ & Hact & Hns). unfold active_started, started.
  by rewrite Hact, Hns.
Qed.

Lemma fragment_variants m dateNow :
  fragment part_001 m dateNow = fragment part_002 m dateNow.
Proof. reflexivity. Qed.

Lemma step_same_but_session s1 s2 e :
  active_started s1 → same_but_session s1 s2 →
  same_but_session (step part_001 s1 e) (step part_002 s2 e).
Proof.
  intros Hst1 Hsame. pose proof (same_but_session_started _ _ Hsame Hst1) as Hst2.
  destruct Hsame as (Hstatus & Htr & Htalk & Hcur & Hact & Hns).
  unfold step, exec. destruct e as [m currentTime dateNow|source| |]; cbn [handler].
  - rewrite !onmessage_unfold.
    destruct (truthy_string (base64Audio m)) as [b|];
      [destruct (decodeAudioData b) as [d|]|].
    + rewrite !after_audio_started by (by apply active_started_enqueued).
      rewrite fragment_variants.
      destruct (barges m); unfold same_but_session; cbn;
        by rewrite ?Hstatus, ?Htr, ?Htalk, ?Hcur, ?Hact, ?Hns.
    + unfold same_but_session; cbn.
      by rewrite ?Hstatus, ?Htr, ?Htalk, ?Hcur, ?Hact, ?Hns.
    + rewrite !after_audio_started by done. rewrite fragment_variants.
      destruct (barges m); unfold same_but_session; cbn;
        by rewrite ?Hstatus, ?Htr, ?Htalk, ?Hcur, ?Hact, ?Hns.
  - fold (exec (onended source) s1). fold (exec (onended source) s2).
    rewrite !onended_exec. unfold same_but_session; cbn.
    by rewrite ?Hstatus, ?Htr, ?Htalk, ?Hcur, ?Hact, ?Hns.
  - fold (exec (endInterview part_001) s1). fold (exec (endInterview part_002) s2).
    destruct (endInterview_exec part_001 s1) as [? ->].
    destruct (endInterview_exec part_002 s2) as [? ->].
    unfold same_but_session; cbn. by rewrite ?Htr, ?Htalk, ?Hcur, ?Hact, ?Hns.
  - unfold same_but_session; cbn. by rewrite ?Htr, ?Htalk, ?Hcur, ?Hact, ?Hns.
Qed.

(** X12. Fed the same events from the same state, the two variants
    of the component stay in step: status, transcript, talking flag,
    cursor, active set and store are equal after every run; they can
    differ in [sessionRef] only. *)
Theorem variants_stay_in_step (es : list Event) (s : App) :
  active_started s →
  let s1 := run part_001 es s in
  let s2 := run part_002 es s in
  status s1 = status s2 ∧ transcript s1 = transcript s2
  ∧ isModelTalking s1 = isModelTalking s2
  ∧ nextStartTimeRef s1 = nextStartTimeRef s2
  ∧ activeSourcesRef s1 = activeSourcesRef s2
  ∧ nodes s1 = nodes s2.
Proof.
  intros Hst s1 s2. subst s1 s2.
  change (same_but_session (run part_001 es s) (run part_002 es s)).
  assert (∀ a b, active_started a → same_but_session a b →
            same_but_session (run part_001 es a) (run part_002 es b)) as Hgen.
  { induction es as [|e es IH]; intros a b Ha Hab; [done|].
    change (same_but_session (run part_001 es (step part_001 a e))
                             (run part_002 es (step part_002 b e))).
    apply IH; [by apply step_active_started|by apply step_same_but_session]. }
  by apply Hgen.
Qed.

(** *** The flag while something is scheduled *)

Lemma step_active_talking v s e :
  active_started s →
  (activeSourcesRef s ≠ [] → isModelTalking s = true) →
  activeSourcesRef (step v s e) ≠ [] → isModelTalking (step v s e) = true.
Proof.
  intros Hst Hinv. unfold step, exec.
  destruct e as [m currentTime dateNow|source| |]; cbn [handler].
  - rewrite onmessage_unfold.
    destruct (truthy_string (base64Audio m)) as [b|];
      [destruct (decodeAudioData b) as [d|]|]; [| done |].
    + rewrite after_audio_started by (by apply active_started_enqueued).
      by destruct (barges m).
    + rewrite after_audio_started by done.
      destruct (barges m); [done|exact Hinv].
  - fold (exec (onended source) s). rewrite onended_exec. cbn.
    case_decide as Hd; [done|]. intros _. apply Hinv. intros Hnil.
    apply Hd. unfold set_delete. by rewrite Hnil.
  - fold (exec (endInterview v) s).
    by destruct (endInterview_exec v s) as [? ->].
  - exact Hinv.
Qed.

(** X13. Whether chunks decode or not, the talking flag is set in
    every reachable state in which a source is active; when the flag is
    clear nothing is scheduled. *)
Theorem active_implies_talking (v : Variant) (es : list Event) :
  let s := run v es initialApp in
  (activeSourcesRef s ≠ [] → isModelTalking s = true)
  ∧ (isModelTalking s = false → activeSourcesRef s = []).
Proof.
  intros s. assert (activeSourcesRef s ≠ [] → isModelTalking s = true) as Hinv.
  { subst s. induction es as [|e es IH] using rev_ind; [done|].
    rewrite run_snoc. apply step_active_talking; [apply run_active_started|done]. }
  split; [done|]. intros Hf.
  destruct (activeSourcesRef s) eqn:E; [done|].
  rewrite Hinv in Hf; done.
Qed.

(** *** Times are never negative *)

Lemma stop_all_Forall (P : AudioBufferSourceNode → Prop) active ns :
  (∀ n, P n → P (stop_node n)) → Forall P ns → Forall P (stop_all active ns).
Proof.
  intros Hstop. rewrite !Forall_lookup. intros Hall i n' Hi.
  assert (is_Some (ns !! i)) as [n Hn].
  { apply lookup_lt_is_Some. rewrite <- (stop_all_length active).
    by eapply lookup_lt_Some. }
  rewrite (stop_all_lookup _ _ _ _ Hn) in Hi. injection Hi as <-.
  specialize (Hall _ _ Hn). case_decide; auto.
Qed.

Lemma step_nonneg v s e :
  NonNegDurations → active_started s →
  let P := λ n, 0 ≤ duration n ∧ ∃ t, startedAt n = Some t ∧ 0 ≤ t in
  0 ≤ nextStartTimeRef s → Forall P (nodes s) →
  0 ≤ nextStartTimeRef (step v s e) ∧ Forall P (nodes (step v s e)).
Proof.
  intros Hnn Hst P Hcur Hall.
  assert (∀ n, P n → P (stop_node n)) as Hstop by done.
  unfold step, exec. destruct e as [m currentTime dateNow|source| |]; cbn [handler].
  - rewrite onmessage_unfold.
    destruct (truthy_string (base64Audio m)) as [b|];
      [destruct (decodeAudioData b) as [d|] eqn:Hd|].
    + apply Hnn in Hd.
      assert (Forall P (nodes (enqueued d currentTime s))) as Hall'.
      { cbn. apply Forall_app. split; [done|]. apply Forall_singleton.
        split; [done|]. eexists. split; [done|]. lia. }
      rewrite after_audio_started by (by apply active_started_enqueued).
      destruct (barges m); cbn [snd].
      * split; [done|]. by apply stop_all_Forall.
      * split; [cbn; lia|done].
    + split; [cbn; lia|done].
    + rewrite after_audio_started by done.
      destruct (barges m); cbn [snd]; [|done].
      split; [done|]. by apply stop_all_Forall.
  - fold (exec (onended source) s). by rewrite onended_exec.
  - fold (exec (endInterview v) s).
    by destruct (endInterview_exec v s) as [? ->].
  - done.
Qed.

(** X14. With non-negative durations the cursor is never negative, and
    every source that was ever created was started at a non-negative
    time, whatever the clock readings were. *)
Theorem times_are_nonnegative (v : Variant) (es : list Event) :
  NonNegDurations →
  let s := run v es initialApp in
  0 ≤ nextStartTimeRef s
  ∧ ∀ i n, nodes s !! i = Some n →
      0 ≤ duration n ∧ ∃ t, startedAt n = Some t ∧ 0 ≤ t.
Proof.
  intros Hnn s.
  assert (0 ≤ nextStartTimeRef s
          ∧ Forall (λ n, 0 ≤ duration n ∧ ∃ t, startedAt n = Some t ∧ 0 ≤ t)
                   (nodes s)) as [Hcur Hall].
  { subst s. induction es as [|e es IH] using rev_ind.
    - split; [done|by apply Forall_nil].
    - rewrite run_snoc. destruct IH as [IH1 IH2].
      by apply step_nonneg; [|apply run_active_started| |]. }
  split; [done|]. by apply Forall_lookup.
Qed.

End Completion.

(** * The session around the scheduler *)

Section Session.
Context `{Codec}.

Lemma step_sessionRef v s e :
  sessionRef (step v s e)
  = match e with
    | EndInterview =>
        match v with
        | part_001 =>
            match sessionRef s with
            | Some _ => Some {| closed := true |}
            | None => None
            end
        | part_002 => None
        end
    | _ => sessionRef s
    end.
Proof.
  unfold step, exec. destruct e as [m currentTime dateNow|source| |]; cbn [handler].
  - rewrite onmessage_unfold.
    assert (∀ s1, sessionRef (after_audio v m dateNow s1).2 = sessionRef s1) as Hrest.
    { intros s1.
      by destruct (after_audio_frame v m dateNow s1) as [->|[_ [ns [->|[e ->]]]]]. }
    destruct (truthy_string (base64Audio m)) as [b|];
      [destruct (decodeAudioData b) as [d|]|]; [|done|]; by rewrite Hrest.
  - fold (exec (onended source) s). by rewrite onended_exec.
  - destruct v; cbn;
      unfold Part001.endInterview, Part002.endInterview, mbind, JS_bind, gets,
        modify, when; cbn; destruct (sessionRef s) eqn:E; cbn; by rewrite ?E.
  - done.
Qed.

Lemma act_without_session c a :
  a ≠ SessionResolved → sessionRef (core c) = None →
  sent (act c a) = sent c ∧ sessionRef (core (act c a)) = None.
Proof.
  intros Ha Hnone.
  assert (∀ e, sessionRef (core (inCore (handler part_002 e) c)) = None) as Hch.
  { intros e. unfold inCore. cbn [core set_core].
    change (exec (handler part_002 e) (core c)) with (step part_002 (core c) e).
    rewrite step_sessionRef. by destruct e. }
  destruct a as [e|r| |message| | | |blob| |]; try done; cbn [act].
  - split; [done|apply Hch].
  - unfold startInterview. destruct (selectedRole c); [|done].
    by destruct (truthy_string (API_KEY c)).
  - split; [done|apply (Hch EndInterview)].
  - unfold onaudioprocess. by rewrite Hnone.
  - unfold requestEvaluation. by rewrite Hnone.
Qed.

(** X15. In the second variant nothing is handed to the channel while
    there is no session: as long as the connection has not resolved,
    microphone frames and summary requests are dropped, whatever else
    happens; and both [endInterview] and a channel error leave the
    component without a session. *)
Theorem nothing_sent_without_session (l : list Action) (c : Component) :
  Forall (λ a, a ≠ SessionResolved) l →
  (sessionRef (core c) = None →
   sent (acts l c) = sent c ∧ sessionRef (core (acts l c)) = None)
  ∧ sent (acts l (act c (Channel EndInterview))) = sent c
  ∧ sent (acts l (act c Error_)) = sent c.
Proof.
  intros Hl.
  assert (∀ c0, sessionRef (core c0) = None →
            sent (acts l c0) = sent c0 ∧ sessionRef (core (acts l c0)) = None) as Hgen.
  { induction Hl as [|a l Ha Hl IH]; intros c0 Hnone; [done|].
    change (acts (a :: l) c0) with (acts l (act c0 a)).
    destruct (act_without_session c0 a Ha Hnone) as [Hsent Hs].
    destruct (IH _ Hs) as [-> ->]. done. }
  split; [apply Hgen|]. split.
  - destruct (Hgen (act c (Channel EndInterview))) as [-> _]; [|done].
    cbn [act]. unfold inCore. cbn [core set_core].
    change (exec (handler part_002 EndInterview) (core c))
      with (step part_002 (core c) EndInterview).
    by rewrite step_sessionRef.
  - destruct (Hgen (act c Error_)) as [-> _]; [|done].
    cbn [act]. unfold onerror, inCore. cbn [core set_core setError].
    change (exec (endInterview part_002) (core c))
      with (step part_002 (core c) EndInterview).
    by rewrite step_sessionRef.
Qed.

Lemma act_lifecycle c a :
  lifecycle a = true →
  nextStartTimeRef (core (act c a)) = nextStartTimeRef (core c)
  ∧ activeSourcesRef (core (act c a)) = activeSourcesRef (core c)
  ∧ nodes (core (act c a)) = nodes (core c)
  ∧ isModelTalking (core (act c a)) = isModelTalking (core c).
Proof.
  intros Ha.
  assert (∀ c0,
    nextStartTimeRef (core (inCore (endInterview part_002) c0))
    = nextStartTimeRef (core c0)
    ∧ activeSourcesRef (core (inCore (endInterview part_002) c0))
      = activeSourcesRef (core c0)
    ∧ nodes (core (inCore (endInterview part_002) c0)) = nodes (core c0)
    ∧ isModelTalking (core (inCore (endInterview part_002) c0))
      = isModelTalking (core c0)) as Hend.
  { intros c0. unfold inCore. cbn [core set_core].
    by destruct (endInterview_exec part_002 (core c0)) as [? ->]. }
  destruct a as [e|r| |message| | | |blob| |]; cbn [act].
  - destruct e as [| | |]; try done; apply Hend.
  - done.
  - unfold startInterview. destruct (selectedRole c); [|done].
    by destruct (truthy_string (API_KEY c)).
  - done.
  - done.
  - done.
  - apply (Hend (setError _ c)).
  - unfold onaudioprocess. by destruct (sessionRef (core c)).
  - unfold requestEvaluation. by destruct (sessionRef (core c)).
  - done.
Qed.

(** X16. Nothing but messages and completions touches the scheduler:
    selecting a role, starting an interview, its failure, the
    connection opening and resolving, a channel error, the end of the
    interview, microphone frames, summary requests and the return to
    the dashboard leave cursor, active set, store and talking flag as
    they are.  So a chunk that decodes after any of these, in a new
    session too, is started at the maximum of the old cursor and the
    clock. *)
Theorem lifecycle_keeps_scheduler (l : list Action) (c : Component) :
  Forall (λ a, lifecycle a = true) l →
  let c' := acts l c in
  nextStartTimeRef (core c') = nextStartTimeRef (core c)
  ∧ activeSourcesRef (core c') = activeSourcesRef (core c)
  ∧ nodes (core c') = nodes (core c)
  ∧ isModelTalking (core c') = isModelTalking (core c)
  ∧ ∀ e currentTime d, scheduled e = Some (currentTime, d) →
      last (nodes (core (act c' (Channel e))))
      = Some (mkNode d (Some (Z.max (nextStartTimeRef (core c)) currentTime)) false).
Proof.
  intros Hl c'.
  assert (nextStartTimeRef (core c') = nextStartTimeRef (core c)
          ∧ activeSourcesRef (core c') = activeSourcesRef (core c)
          ∧ nodes (core c') = nodes (core c)
          ∧ isModelTalking (core c') = isModelTalking (core c)) as (Hcur & Hact & Hns & Ht).
  { subst c'. revert c. induction Hl as [|a l Ha Hl IH]; intros c; [done|].
    change (acts (a :: l) c) with (acts l (act c a)).
    destruct (act_lifecycle c a Ha) as (<- & <- & <- & <-). apply IH. }
  split_and!; try done.
  intros e currentTime d He. cbn. fold (step part_002 (core c') e).
  destruct (step_scheduled part_002 (core c') e _ _ He) as (m & w & -> & ->).
  cbn. by rewrite last_snoc, Hcur.
Qed.

Lemma step_status v s e :
  status (step v s e)
  = match e with
    | EndInterview | Close => ENDED
    | _ => status s
    end.
Proof.
  unfold step, exec. destruct e as [m currentTime dateNow|source| |]; cbn [handler].
  - rewrite onmessage_unfold.
    assert (∀ s1, status (after_audio v m dateNow s1).2 = status s1) as Hrest.
    { intros s1.
      by destruct (after_audio_frame v m dateNow s1) as [->|[_ [ns [->|[e ->]]]]]. }
    destruct (truthy_string (base64Audio m)) as [b|];
      [destruct (decodeAudioData b) as [d|]|]; [|done|]; by rewrite Hrest.
  - fold (exec (onended source) s). by rewrite onended_exec.
  - fold (exec (endInterview v) s).
    by destruct (endInterview_exec v s) as [? ->].
  - done.
Qed.

Lemma act_connecting c a :
  (status (core c) = CONNECTING →
   is_Some (selectedRole c) ∧ is_Some (truthy_string (API_KEY c))) →
  status (core (act c a)) = CONNECTING →
  is_Some (selectedRole (act c a)) ∧ is_Some (truthy_string (API_KEY (act c a)))
  ∧ (a = StartInterview → error (act c a) = None).
Proof.
  intros Hinv.
  destruct a as [e|r| |message| | | |blob| |]; cbn [act].
  - unfold inCore. cbn [core set_core selectedRole API_KEY].
    change (exec (handler part_002 e) (core c)) with (step part_002 (core c) e).
    rewrite step_status. destruct e; try done; intros Hs; by destruct (Hinv Hs).
  - cbn. intros Hs. destruct (Hinv Hs) as [_ Hk]. split_and!; [by eexists|done|done].
  - unfold startInterview. destruct (selectedRole c) as [r|] eqn:Hr.
    + destruct (truthy_string (API_KEY c)) as [k|] eqn:Hk; cbn.
      * intros _. rewrite Hr, Hk. split_and!; [by eexists|by eexists|done].
      * intros Hs. destruct (Hinv Hs) as [_ [? ?]]. congruence.
    + intros Hs. by destruct (Hinv Hs) as [[? ?] _].
  - done.
  - cbn. intros Hs. by destruct (Hinv Hs).
  - done.
  - unfold onerror, inCore. cbn [core set_core].
    change (exec (endInterview part_002) (core (setError _ c)))
      with (step part_002 (core (setError
              (Some "Connection Error. The session has been interrupted.") c))
              EndInterview).
    by rewrite step_status.
  - unfold onaudioprocess. destruct (sessionRef (core c)); cbn;
      intros Hs; by destruct (Hinv Hs).
  - unfold requestEvaluation. destruct (sessionRef (core c)); cbn;
      intros Hs; by destruct (Hinv Hs).
  - done.
Qed.

Lemma act_API_KEY c a : API_KEY (act c a) = API_KEY c.
Proof.
  destruct a as [e|r| |message| | | |blob| |]; try done; cbn [act].
  - unfold startInterview. destruct (selectedRole c); [|done].
    by destruct (truthy_string (API_KEY c)).
  - unfold onaudioprocess. by destruct (sessionRef (core c)).
  - unfold requestEvaluation. by destruct (sessionRef (core c)).
Qed.

(** X17. The second variant never connects without a selected role
    and a non-empty API key: whatever is clicked and whatever the
    channel delivers, if the status is [CONNECTING] then a role is
    selected and the key is present.  A [startInterview] that passes
    both guards clears the error; a failed start puts the status back
    to [IDLE] with an error message, the fallback text when the
    failure carries none. *)
Theorem connects_only_with_role_and_key (l : list Action) (key : option string) :
  let c := acts l (initialComponent key) in
  (status (core c) = CONNECTING →
   is_Some (selectedRole c) ∧ is_Some (truthy_string key))
  ∧ (status (core (act c StartInterview)) = CONNECTING →
     error (act c StartInterview) = None)
  ∧ ∀ message,
      status (core (act c (StartFailed message))) = IDLE
      ∧ error (act c (StartFailed message))
        = Some (default "Failed to initialize interview terminal."
                        (truthy_string message)).
Proof.
  intros c.
  assert (API_KEY c = key
          ∧ (status (core c) = CONNECTING →
             is_Some (selectedRole c) ∧ is_Some (truthy_string (API_KEY c))))
    as [Hkey Hinv].
  { subst c. induction l as [|a l IH] using rev_ind; [done|].
    unfold acts in *. rewrite foldl_app. cbn [foldl].
    destruct IH as [IHkey IHinv]. split.
    - by rewrite act_API_KEY.
    - intros Hs. destruct (act_connecting _ a IHinv Hs) as (? & ? & _). done. }
  split_and!.
  - intros Hs. rewrite <- Hkey. by apply Hinv.
  - intros Hs. by destruct (act_connecting c StartInterview Hinv Hs) as (_ & _ & ->).
  - done.
Qed.

End Session.

(** * Labels of the skill graph *)

Lemma js_slice_take {A} (l : list A) (n : nat) :
  (n ≤ length l)%nat → js_slice l 0 (Z.of_nat n) = take n l.
Proof.
  intros Hn. unfold js_slice. repeat case_decide; try lia.
  replace (Z.to_nat (Z.min 0 _)) with 0%nat by lia.
  rewrite drop_0. f_equal. lia.
Qed.

(** X18. A node label is never longer than twelve code units: a name
    of up to twelve units is shown in full, a longer one as its first
    ten units followed by two dots; either way label and name agree on
    their first ten units. *)
Theorem nodeLabel_bounded (name : list Z) :
  (length (nodeLabel name) ≤ 12)%nat
  ∧ ((length name ≤ 12)%nat → nodeLabel name = name)
  ∧ ((12 < length name)%nat → nodeLabel name = take 10 name ++ [46; 46])
  ∧ take 10 (nodeLabel name) = take 10 name.
Proof.
  unfold nodeLabel. case_decide as Hlen.
  - change 10 with (Z.of_nat 10). rewrite js_slice_take by lia.
    split_and!.
    + rewrite length_app, length_take. unfold dots. cbn [length]. lia.
    + lia.
    + done.
    + rewrite take_app_le by (rewrite length_take; lia).
      by rewrite take_take.
  - split_and!; [lia|done|lia|done].
Qed.

Lemma nodeLabel_bounded_witness :
  nodeLabel [75; 117; 98; 101; 114; 110; 101; 116; 101; 115; 32; 79; 112; 115]
  = take 10 [75; 117; 98; 101; 114; 110; 101; 116; 101; 115; 32; 79; 112; 115]
    ++ [46; 46].
Proof.
  apply (nodeLabel_bounded
           [75; 117; 98; 101; 114; 110; 101; 116; 101; 115; 32; 79; 112; 115]).
  cbn. lia.
Defined.

Lemma enqueue_after_barge_in_witness :
  let s1 := step (H := testCodec) part_001 twoPlaying (Inbound interruptMessage 14 0) in
  let s2 := step (H := testCodec) part_001 s1 (Inbound (audioMessage "abcd") 16 0) in
  nextStartTimeRef s1 = 0 ∧ activeSourcesRef s1 = []
  ∧ nodes s2 = nodes s1 ++ [mkNode 4 (Some (Z.max 0 16)) false]
  ∧ nextStartTimeRef s2 = Z.max 0 16 + 4
  ∧ activeSourcesRef s2 = [length (nodes s1)]
  ∧ isModelTalking s2 = true.
Proof.
  apply (enqueue_after_barge_in (H := testCodec) part_001 twoPlaying
           interruptMessage 14 0 (Inbound (audioMessage "abcd") 16 0) 16 4).
  - repeat constructor; by eexists.
  - reflexivity.
  - reflexivity.
  - reflexivity.
Defined.

Lemma chunk_with_barge_in_is_stopped_witness :
  let s' := step (H := testCodec) part_002 twoPlaying
              (Inbound (audioAndInterrupt "abcd") 14 0) in
  nodes s' !! 2%nat = Some (mkNode 4 (Some (Z.max 15 14)) true)
  ∧ length (nodes s') = 3%nat
  ∧ activeSourcesRef s' = [] ∧ nextStartTimeRef s' = 0
  ∧ isModelTalking s' = false.
Proof.
  apply (chunk_with_barge_in_is_stopped (H := testCodec) part_002 twoPlaying
           (audioAndInterrupt "abcd") 14 0 "abcd" 4).
  - repeat constructor; by eexists.
  - reflexivity.
  - reflexivity.
  - reflexivity.
Defined.

Lemma sources_play_out_witness :
  let s' := run (H := testCodec) part_001 (Ended <$> [1; 7; 0]%nat) twoPlaying in
  activeSourcesRef s' = [] ∧ isModelTalking s' = false
  ∧ nextStartTimeRef s' = 15 ∧ nodes s' = nodes twoPlaying
  ∧ transcript s' = [] ∧ status s' = ACTIVE.
Proof.
  apply (sources_play_out (H := testCodec) part_001 twoPlaying [1; 7; 0]%nat).
  - done.
  - intros x Hx. cbn in Hx.
    repeat (apply elem_of_cons in Hx as [->|Hx];
            [repeat (first [by left | right])|]).
    by apply elem_of_nil in Hx.
Defined.

Lemma stale_completion_is_ignored_witness :
  onended 5 twoPlaying = (Normal tt, twoPlaying).
Proof.
  apply stale_completion_is_ignored.
  - cbn. intros Hx.
    repeat (apply elem_of_cons in Hx as [Hx|Hx]; [lia|]).
    by apply elem_of_nil in Hx.
  - done.
Defined.

Lemma sources_keep_their_schedule_witness :
  ∃ n', nodes (run (H := testCodec) part_001
                 [Inbound (audioMessage "abc") 20 0; Inbound interruptMessage 21 0;
                  Inbound (audioMessage "de") 22 0] twoPlaying) !! 1%nat = Some n'
        ∧ duration n' = 2 ∧ startedAt n' = Some 13
        ∧ (false = true → stopped n' = true).
Proof.
  apply (sources_keep_their_schedule (H := testCodec) part_001
           [Inbound (audioMessage "abc") 20 0; Inbound interruptMessage 21 0;
            Inbound (audioMessage "de") 22 0] twoPlaying 1 (mkNode 2 (Some 13) false)).
  - repeat constructor; by eexists.
  - reflexivity.
Defined.

Lemma transcript_grows_with_transcriptions_witness :
  transcript (run (H := testCodec) part_002
                [Inbound (audioMessage "abc") 20 0; Ended 0; EndInterview] twoPlaying)
  = [].
Proof.
  apply (proj2 (transcript_grows_with_transcriptions (H := testCodec) part_002
                  [Inbound (audioMessage "abc") 20 0; Ended 0; EndInterview]
                  twoPlaying)).
  repeat constructor.
Defined.

Lemma variants_stay_in_step_witness :
  let es := [Inbound (audioMessage "abc") 20 0; Inbound (bothTranscriptions "a" "b") 21 5;
             Inbound interruptMessage 22 0; EndInterview] in
  let s1 := run (H := testCodec) part_001 es twoPlaying in
  let s2 := run (H := testCodec) part_002 es twoPlaying in
  status s1 = status s2 ∧ transcript s1 = transcript s2
  ∧ isModelTalking s1 = isModelTalking s2
  ∧ nextStartTimeRef s1 = nextStartTimeRef s2
  ∧ activeSourcesRef s1 = activeSourcesRef s2
  ∧ nodes s1 = nodes s2.
Proof.
  apply (variants_stay_in_step (H := testCodec)).
  repeat constructor; by eexists.
Defined.

Lemma active_implies_talking_witness :
  isModelTalking
    (run (H := testCodec) part_001
       [Inbound (audioMessage "abc") 5 0; Inbound (audioMessage "!") 6 0; Ended 4]
       initialApp) = true.
Proof.
  apply (active_implies_talking (H := testCodec) part_001
           [Inbound (audioMessage "abc") 5 0; Inbound (audioMessage "!") 6 0; Ended 4]).
  done.
Defined.

Lemma times_are_nonnegative_witness :
  0 ≤ nextStartTimeRef
        (run (H := testCodec) part_002
           [Inbound (audioMessage "abc") (-5) 0; Inbound interruptMessage (-4) 0;
            Inbound (audioMessage "de") (-3) 0] initialApp).
Proof.
  apply (times_are_nonnegative (H := testCodec) part_002
           [Inbound (audioMessage "abc") (-5) 0; Inbound interruptMessage (-4) 0;
            Inbound (audioMessage "de") (-3) 0] testCodec_nonneg).
Defined.

Lemma nothing_sent_without_session_witness :
  sent (acts (H := testCodec)
          [SelectRole {| roleId := "swe"; title := "Software Engineer"; description := "" |};
           StartInterview; Open; AudioProcess "frame"; RequestEvaluation;
           StartFailed None; AudioProcess "frame"]
          (initialComponent (Some "key"))) = [].
Proof.
  apply (proj1 (nothing_sent_without_session (H := testCodec)
                  [SelectRole {| roleId := "swe"; title := "Software Engineer";
                                 description := "" |};
                   StartInterview; Open; AudioProcess "frame"; RequestEvaluation;
                   StartFailed None; AudioProcess "frame"]
                  (initialComponent (Some "key")) ltac:(repeat constructor; done))).
  reflexivity.
Defined.

Lemma lifecycle_keeps_scheduler_witness :
  nextStartTimeRef
    (core (acts (H := testCodec)
             [Channel EndInterview; ReturnToDashboard; StartInterview; SessionResolved; Open]
             (mkComponent twoPlaying None None None (Some "key") []))) = 15.
Proof.
  apply (lifecycle_keeps_scheduler (H := testCodec)
           [Channel EndInterview; ReturnToDashboard; StartInterview; SessionResolved; Open]
           (mkComponent twoPlaying None None None (Some "key") [])).
  repeat constructor.
Defined.

Lemma connects_only_with_role_and_key_witness :
  is_Some (selectedRole
             (acts (H := testCodec)
                [SelectRole {| roleId := "ai"; title := "AI/ML Engineer"; description := "" |};
                 StartInterview]
                (initialComponent (Some "key")))).
Proof.
  apply (connects_only_with_role_and_key (H := testCodec)
           [SelectRole {| roleId := "ai"; title := "AI/ML Engineer"; description := "" |};
            StartInterview]
           (Some "key")).
  reflexivity.
Defined.
